(** * A shallow embedding of the CLMM rebalancing core

    The development follows the TypeScript sources:

    - [types/index.ts]: the [Pool], [Position], [RebalanceDecision],
      [TickRange] and [BotConfig] interfaces;
    - [services/positionMonitor.ts]: [PositionMonitor.checkRebalanceNeeded];
    - [services/rebalanceService.ts.backup]:
      [RebalanceService.calculateExpectedAmounts] and the range step of
      [RebalanceService.rebalance];
    - the BN/Decimal tick math ([tickIndexToSqrtPriceX64],
      [sqrtPriceX64ToTickIndex], [sqrtPriceX64ToPrice]), with the
      decimal.js operations it calls;
    - [utils/poolHelper.ts]: [closestActiveRange] and [isOutOfRange];
    - [execution/collectFees.ts]: [collectFees], [collectReward] and
      [collectAllRewards];
    - the Sui client service: [executeWithTypeArgRetry] and
      [executeTransactionWithoutSimulation];
    - [services/bot.ts]: [RebalancingBot.checkAndRebalance];
    - [services/rebalanceService.ts.backup]: [buildRebalancePTB] and
      [addSwapIfNeeded];
    - [services/rebalanceService.ts]: the step-by-step [rebalance].

    JavaScript integers (ticks, bigint and BN values) are [Z]; a finite
    JavaScript [number] that is not an integer (a percentage) is the
    rational it denotes, [Q]; NaN and the infinities are outside the model.
    A [throw] is the [Throw] constructor of [result]. *)

From Stdlib Require Import ZArith QArith Qabs Qround Lia String Ascii List Bool.
From Stdlib Require Import Decimal DecimalString.
From Stdlib Require Import Reals Lra.
From Stdlib Require Lqa.

Local Open Scope Z_scope.

(** ** Results of fallible code *)

Inductive Error : Type :=
| OutOfBoundsError (tick : Z)
| InvalidRangeError (lower upper : Z)
| AlignmentError
| SyntaxError
| DivisionDomainError
| RpcError (message : string).

Inductive result (A : Type) : Type :=
| Ok (value : A)
| Throw (error : Error).

Arguments Ok {A} value.
Arguments Throw {A} error.

Definition bind {A B : Type} (r : result A) (k : A -> result B) : result B :=
  match r with
  | Ok a => k a
  | Throw e => Throw e
  end.

Notation "x <- r ;; k" := (bind r (fun x => k))
  (at level 61, r at next level, right associativity).

(** ** JavaScript numbers and [Number.prototype.toFixed] *)

Definition Qlt_bool (a b : Q) : bool := negb (Qle_bool b a).

Fixpoint zeros (n : nat) : string :=
  match n with
  | O => EmptyString
  | S n' => String "0" (zeros n')
  end.

(** The decimal digits of a non-negative integer, ["0"] for zero. *)
Definition digits_of (n : Z) : string :=
  NilZero.string_of_uint (N.to_uint (Z.to_N n)).

(** [toFixedAbs x f] follows steps 8-10 of [Number.prototype.toFixed] for
    [0 <= x < 10^21]: [n] is the integer for which [n / 10^f - x] is as
    close to zero as possible, the larger one on a tie; its digits are
    padded on the left to [f + 1] characters and the point is put before
    the last [f] of them. *)
Definition toFixedAbs (x : Q) (f : nat) : string :=
  let n := Qfloor (x * inject_Z (10 ^ Z.of_nat f) + (1 # 2)) in
  let m := digits_of n in
  if (f =? 0)%nat then m
  else
    let k := String.length m in
    let m := if (k <=? f)%nat then (zeros (f + 1 - k) ++ m)%string else m in
    let k := String.length m in
    (substring 0 (k - f) m ++ "." ++ substring (k - f) f m)%string.

(** [x.toFixed(f)]: a negative [x] gives ["-"] followed by the rendering of
    [-x] (so [(-0.001).toFixed(2)] is ["-0.00"]).  Beyond [10^21]
    JavaScript switches to the exponent notation of [ToString], still with
    the sign first; the model keeps plain digits there. *)
Definition toFixed (x : Q) (f : nat) : string :=
  if Qlt_bool x 0 then String "-" (toFixedAbs (Qabs x) f)
  else toFixedAbs x f.

(** [BigInt(s)] on a non-empty string of decimal digits, the form in which
    the chain reports [u128] values. *)
Definition BigIntOfDigits (s : string) : option Z :=
  option_map (fun u => Z.of_N (N.of_uint u)) (NilZero.uint_of_string s).

(** ** [types/index.ts] *)

Module BotConfig.
Record t : Type := mk {
    rebalanceThresholdPercent : Q;
    rangeWidthPercent : Q;
    maxSlippagePercent : Q
  }.
End BotConfig.

Module Position.
Record t : Type := mk {
    id : string;
    poolId : string;
    tickLower : Z;
    tickUpper : Z;
    liquidity : string;
    coinA : string;
    coinB : string
  }.
End Position.

Module Pool.
Record t : Type := mk {
    id : string;
    coinTypeA : string;
    coinTypeB : string;
    currentSqrtPrice : string;
    currentTick : Z;
    tickSpacing : Z;
    feeRate : Z
  }.
End Pool.

Module RebalanceDecision.
Record t : Type := mk {
    shouldRebalance : bool;
    reason : string;
    currentTick : Z;
    tickLower : Z;
    tickUpper : Z;
    priceDeviation : Q
  }.
End RebalanceDecision.

Module TickRange.
Record t : Type := mk {
    tickLower : Z;
    tickUpper : Z
  }.
End TickRange.

(** ** [services/positionMonitor.ts] *)

Module PositionMonitor.
Section WithTickMath.

  (** The two helpers imported from [../utils/tickMath]. *)
Variable isTickInRange : Z -> Z -> Z -> bool.
Variable calculatePriceDeviation : Z -> Z -> Z -> Q.

Variable config : BotConfig.t.

  (** The body of the [try] block once both snapshots are there. *)
Definition evaluate (pool : Pool.t) (position : Position.t)
    : RebalanceDecision.t :=
    let inRange :=
      isTickInRange (Pool.currentTick pool)
                    (Position.tickLower position)
                    (Position.tickUpper position) in
    if inRange then
      {| RebalanceDecision.shouldRebalance := false;
         RebalanceDecision.reason := "Position is in range";
         RebalanceDecision.currentTick := Pool.currentTick pool;
         RebalanceDecision.tickLower := Position.tickLower position;
         RebalanceDecision.tickUpper := Position.tickUpper position;
         RebalanceDecision.priceDeviation := 0%Q |}
    else
      let deviation :=
        calculatePriceDeviation (Pool.currentTick pool)
                                (Position.tickLower position)
                                (Position.tickUpper position) in
      if Qlt_bool (Qabs deviation)
                  (BotConfig.rebalanceThresholdPercent config) then
        {| RebalanceDecision.shouldRebalance := false;
           RebalanceDecision.reason :=
             ("Deviation " ++ toFixed deviation 2 ++ "% below threshold")%string;
           RebalanceDecision.currentTick := Pool.currentTick pool;
           RebalanceDecision.tickLower := Position.tickLower position;
           RebalanceDecision.tickUpper := Position.tickUpper position;
           RebalanceDecision.priceDeviation := deviation |}
      else
        {| RebalanceDecision.shouldRebalance := true;
           RebalanceDecision.reason :=
             ("Price moved " ++ toFixed deviation 2 ++ "% outside range")%string;
           RebalanceDecision.currentTick := Pool.currentTick pool;
           RebalanceDecision.tickLower := Position.tickLower position;
           RebalanceDecision.tickUpper := Position.tickUpper position;
           RebalanceDecision.priceDeviation := deviation |}.

  (** [checkRebalanceNeeded]: [getPool] and [getPosition] are awaited
      together; a failure of either is logged and thrown again. *)
Definition checkRebalanceNeeded
      (getPool : result Pool.t) (getPosition : result Position.t)
    : result RebalanceDecision.t :=
    pool <- getPool ;;
    position <- getPosition ;;
    Ok (evaluate pool position).

End WithTickMath.
End PositionMonitor.

(** ** [utils/tickMath.ts] of the bot

    The services import [isTickInRange], [calculatePriceDeviation],
    [calculateTickRange], [tickToSqrtPrice], [getAmountAFromLiquidity] and
    [getAmountBFromLiquidity] from this module. *)

Module BotTickMath.

Definition MIN_TICK : Z := -443636.
Definition MAX_TICK : Z := 443636.

(** Modelled from the spec: [isTickInRange] of [utils/tickMath.ts] is
    missing; section 4.4 step 1 gives
    [inRange = position.tickLower <= pool.currentTick < position.tickUpper],
    the upper bound exclusive. *)
Definition isTickInRange (tick tickLower tickUpper : Z) : bool :=
  (tickLower <=? tick) && (tick <? tickUpper).

(** [price(tick) = 1.0001^tick], section 3. *)
Definition price (tick : Z) : Q := Qpower (10001 # 10000) tick.

(** Modelled from the spec: [calculatePriceDeviation] of
    [utils/tickMath.ts] is missing; section 4.4 step 3 gives the signed
    percentage distance, in price space, from the current tick to the
    violated boundary,
    [(price(currentTick) - price(boundary)) / price(boundary) * 100],
    negative below [tickLower] and positive above [tickUpper]. *)
Definition calculatePriceDeviation (currentTick tickLower tickUpper : Z) : Q :=
  if currentTick <? tickLower then
    (price currentTick - price tickLower) / price tickLower * 100
  else if tickUpper <=? currentTick then
    (price currentTick - price tickUpper) / price tickUpper * 100
  else 0.

(** Rounding a tick down and up to a multiple of the spacing. *)
Definition alignDown (tick tickSpacing : Z) : Z :=
  tick / tickSpacing * tickSpacing.

Definition alignUp (tick tickSpacing : Z) : Z :=
  - ((- tick) / tickSpacing) * tickSpacing.

Section CalculateTickRange.

(** Step 1 of section 4.3 turns the configured width into a half width in
    ticks, [round(log(1 + widthPercent/200) / log(1.0001))] or a direct
    scaling for a tick-native configuration; the conversion is left open. *)
Variable halfWidthTicks : Q -> Z.

(** Modelled from the spec: [calculateTickRange] of [utils/tickMath.ts] is
    missing; section 4.3 steps 2-4: centre on the current tick, align the
    lower bound down and the upper bound up, move a bound that landed on
    the current tick one spacing outward, and fail with [InvalidRangeError]
    unless the bounds lie in [[MIN_TICK, MAX_TICK]] with
    [tickLower < tickUpper]. *)
Definition calculateTickRange (currentTick : Z) (widthPercent : Q)
    (tickSpacing : Z) : result TickRange.t :=
  let half := halfWidthTicks widthPercent in
  let rawLower := currentTick - half in
  let rawUpper := currentTick + half in
  let lower0 := alignDown rawLower tickSpacing in
  let upper0 := alignUp rawUpper tickSpacing in
  let lower := if lower0 =? currentTick then lower0 - tickSpacing else lower0 in
  let upper := if upper0 =? currentTick then upper0 + tickSpacing else upper0 in
  if (MIN_TICK <=? lower) && (upper <=? MAX_TICK) && (lower <? upper) then
    Ok {| TickRange.tickLower := lower; TickRange.tickUpper := upper |}
  else Throw (InvalidRangeError lower upper).

End CalculateTickRange.

Definition Q64 : Z := 2 ^ 64.

(** Modelled from the spec: [getAmountAFromLiquidity] of
    [utils/tickMath.ts] is missing; section 4.2 gives
    [floor(L * (sqrtB - sqrtA) * 2^64 / (sqrtA * sqrtB))] after the
    swap-if-needed normalisation, and section 7 a [DivisionDomainError]
    where the ratio has no denominator. *)
Definition getAmountAFromLiquidity (sqrtPriceA sqrtPriceB liquidity : Z)
  : result Z :=
  let lo := Z.min sqrtPriceA sqrtPriceB in
  let hi := Z.max sqrtPriceA sqrtPriceB in
  if lo * hi =? 0 then Throw DivisionDomainError
  else Ok (liquidity * (hi - lo) * Q64 / (lo * hi)).

(** Modelled from the spec: [getAmountBFromLiquidity] of
    [utils/tickMath.ts] is missing; section 4.2 gives
    [floor(L * (sqrtB - sqrtA) / 2^64)] after the same normalisation. *)
Definition getAmountBFromLiquidity (sqrtPriceA sqrtPriceB liquidity : Z)
  : result Z :=
  let lo := Z.min sqrtPriceA sqrtPriceB in
  let hi := Z.max sqrtPriceA sqrtPriceB in
  Ok (liquidity * (hi - lo) / Q64).

(** Modelled from the spec: [tickToSqrtPrice] of [utils/tickMath.ts] is
    missing; section 4.1 gives [floor(sqrt(1.0001^tick) * 2^64)] inside the tick bounds and an
    [OutOfBoundsError] outside. *)
Definition tickToSqrtPrice (tick : Z) : result Z :=
  if (tick <? MIN_TICK) || (MAX_TICK <? tick) then Throw (OutOfBoundsError tick)
  else if 0 <=? tick then
    Ok (Z.sqrt (10001 ^ tick * 2 ^ 128 / 10000 ^ tick))
  else
    Ok (Z.sqrt (10000 ^ (- tick) * 2 ^ 128 / 10001 ^ (- tick))).

End BotTickMath.

(** ** [services/rebalanceService.ts.backup] *)

Module Amounts.
Record t : Type := mk {
  amountA : Z;
  amountB : Z
}.
End Amounts.

Module RebalanceService.
Section WithTickMath.

(** [BigInt(s)] on a string: [None] stands for the [SyntaxError] it throws
    on a string that is no integer literal. *)
Variable BigInt : string -> option Z.

(** The helpers imported from [../utils/tickMath]. *)
Variable calculateTickRange : Z -> Q -> Z -> result TickRange.t.
Variable tickToSqrtPrice : Z -> result Z.
Variable getAmountAFromLiquidity : Z -> Z -> Z -> result Z.
Variable getAmountBFromLiquidity : Z -> Z -> Z -> result Z.

Variable config : BotConfig.t.

Definition parse (s : string) : result Z :=
  match BigInt s with
  | Some n => Ok n
  | None => Throw SyntaxError
  end.

(** [a % b !== 0] on numbers: the remainder takes the sign of the dividend,
    and [a % 0] is NaN, which differs from 0. *)
Definition misaligned (a b : Z) : bool :=
  (b =? 0) || negb (Z.rem a b =? 0).

(** The range step of [rebalance]: the new range and the alignment guard
    that follows it. *)
Definition newRange (pool : Pool.t) : result TickRange.t :=
  range <- calculateTickRange (Pool.currentTick pool)
                              (BotConfig.rangeWidthPercent config)
                              (Pool.tickSpacing pool) ;;
  if misaligned (TickRange.tickLower range) (Pool.tickSpacing pool)
     || misaligned (TickRange.tickUpper range) (Pool.tickSpacing pool)
  then Throw AlignmentError
  else Ok range.

Definition calculateExpectedAmounts (pool : Pool.t) (position : Position.t)
  : result Amounts.t :=
  sqrtPriceCurrent <- parse (Pool.currentSqrtPrice pool) ;;
  sqrtPriceLower <- tickToSqrtPrice (Position.tickLower position) ;;
  sqrtPriceUpper <- tickToSqrtPrice (Position.tickUpper position) ;;
  liquidity <- parse (Position.liquidity position) ;;
  if sqrtPriceCurrent <=? sqrtPriceLower then
    amountA <- getAmountAFromLiquidity sqrtPriceLower sqrtPriceUpper liquidity ;;
    Ok {| Amounts.amountA := amountA; Amounts.amountB := 0 |}
  else if sqrtPriceCurrent >=? sqrtPriceUpper then
    amountB <- getAmountBFromLiquidity sqrtPriceLower sqrtPriceUpper liquidity ;;
    Ok {| Amounts.amountA := 0; Amounts.amountB := amountB |}
  else
    amountA <- getAmountAFromLiquidity sqrtPriceCurrent sqrtPriceUpper liquidity ;;
    amountB <- getAmountBFromLiquidity sqrtPriceLower sqrtPriceCurrent liquidity ;;
    Ok {| Amounts.amountA := amountA; Amounts.amountB := amountB |}.

End WithTickMath.
End RebalanceService.

(** ** Decimal arithmetic of the BN/Decimal tick math

    [tickIndexToSqrtPriceX64] and [sqrtPriceX64ToTickIndex] compute with
    decimal.js under its default configuration: [precision = 20]
    significant digits and [rounding = ROUND_HALF_UP].  A finite decimal is
    a coefficient and a power of ten; only non-negative values occur. *)

Module Decimal.

Record t : Type := mk {
  coef : Z;
  expo : Z
}.

Definition precision : Z := 20.
Definition LOG_BASE : Z := 7.

Definition ofZ (n : Z) : t := {| coef := n; expo := 0 |}.

Definition one : t := ofZ 1.

(** [new Decimal(1.0001)]: the number is read through its shortest decimal
    string, ["1.0001"]. *)
Definition tickBase : t := {| coef := 10001; expo := -4 |}.

Fixpoint ndigits_fuel (fuel : nat) (c : Z) : Z :=
  match fuel with
  | O => 1
  | S fuel' => if c <? 10 then 1 else 1 + ndigits_fuel fuel' (c / 10)
  end.

(** Number of decimal digits of a positive coefficient. *)
Definition ndigits (c : Z) : Z :=
  ndigits_fuel (Z.to_nat (Z.log2 c)) c.

(** Dropping the last [k] digits of [c], the last kept digit rounded half
    up on the first dropped one. *)
Definition dropDigits (c k : Z) : Z :=
  let q := c / 10 ^ k in
  let r := c mod 10 ^ k in
  if 10 ^ k <=? 2 * r then q + 1 else q.

(** [finalise(x, sd, ROUND_HALF_UP)]: [x] rounded to [sd] significant
    digits. *)
Definition finalise (x : t) (sd : Z) : t :=
  let nd := ndigits (coef x) in
  if nd <=? sd then x
  else {| coef := dropDigits (coef x) (nd - sd); expo := expo x + (nd - sd) |}.

(** The digits array [d] of decimal.js holds words of [LOG_BASE] digits
    aligned on the decimal point: the exponent becomes a multiple of 7. *)
Definition alignWords (x : t) : t :=
  let r := expo x mod LOG_BASE in
  {| coef := coef x * 10 ^ r; expo := expo x - r |}.

Fixpoint stripWords_fuel (fuel : nat) (x : t) : t :=
  match fuel with
  | O => x
  | S fuel' =>
      if (coef x =? 0) || negb (coef x mod 10 ^ LOG_BASE =? 0) then x
      else stripWords_fuel fuel'
             {| coef := coef x / 10 ^ LOG_BASE; expo := expo x + LOG_BASE |}
  end.

(** Trailing zero words are removed from [d]. *)
Definition stripWords (x : t) : t :=
  stripWords_fuel (Z.to_nat (Z.log2 (coef x))) x.

Definition nwords (c : Z) : Z := (ndigits c + (LOG_BASE - 1)) / LOG_BASE.

(** [truncate(arr, len)]: the array is cut to [len] words; the flag tells
    whether it was longer. *)
Definition truncate (x : t) (len : Z) : t * bool :=
  let n := nwords (coef x) in
  if len <? n then
    ({| coef := coef x / 10 ^ (LOG_BASE * (n - len));
        expo := expo x + LOG_BASE * (n - len) |}, true)
  else (x, false).

(** [x.times(y)] while [external] is false: the exact product, trailing
    zero words removed, not rounded. *)
Definition timesExact (x y : t) : t :=
  stripWords {| coef := coef x * coef y; expo := expo x + expo y |}.

(** [x.times(y)]: the product rounded to [precision] digits. *)
Definition times (x y : t) : t :=
  finalise (timesExact (alignWords x) (alignWords y)) precision.

(** Maximum length of the digits array in [intPow],
    [Math.ceil(pr / LOG_BASE + 4)]. *)
Definition intPowWords : Z := (precision + 4 * LOG_BASE + (LOG_BASE - 1)) / LOG_BASE.

(** The loop of [intPow(Ctor, x, n, pr)], on the bits of [n] from the
    lowest: [r] is multiplied by [x] on a set bit and cut to
    [intPowWords] words, [x] is squared and cut between two bits.  After
    the last bit a result that was cut at some point and ends with a zero
    word has that word incremented. *)
Fixpoint intPow_loop (n : positive) (r x : t) (isTruncated : bool) : t :=
  match n with
  | xH =>
      let (r', tr) := truncate (timesExact r x) intPowWords in
      if (isTruncated || tr) && (coef r' mod 10 ^ LOG_BASE =? 0)
      then {| coef := coef r' + 1; expo := expo r' |}
      else r'
  | xO n' =>
      intPow_loop n' r (fst (truncate (timesExact x x) intPowWords)) isTruncated
  | xI n' =>
      let (r', tr) := truncate (timesExact r x) intPowWords in
      intPow_loop n' r' (fst (truncate (timesExact x x) intPowWords))
                  (isTruncated || tr)
  end.

Definition intPow (x : t) (n : positive) : t :=
  intPow_loop n one (alignWords x) false.

(** [x.eq(1)]. *)
Definition isOne (x : t) : bool :=
  (expo x <=? 0) && (coef x =? 10 ^ (- expo x)).

(** [x.div(y)] for positive [x] and [y]: the quotient rounded to
    [precision] digits.  The integer quotient is taken with at least one
    digit more than [precision], so that rounding it half up rounds the
    exact quotient half up. *)
Definition div (x y : t) : t :=
  let j := Z.max 0 (precision + 1 + ndigits (coef y) - ndigits (coef x)) in
  finalise {| coef := coef x * 10 ^ j / coef y;
              expo := expo x - expo y - j |} precision.

(** [x.sqrt()] for a positive [x]: decimal.js refines the estimate
    [Math.sqrt(+x)] by Newton-Raphson steps until the rounding digits are
    settled and returns the root rounded to [precision] digits; the model
    takes the integer root of the coefficient scaled to an even exponent
    and at least [2 * (precision + 1)] digits and rounds it. *)
Definition sqrt (x : t) : t :=
  let j0 := Z.max 0 (2 * (precision + 1) - ndigits (coef x)) in
  let j := if Z.even (expo x - j0) then j0 else j0 + 1 in
  finalise {| coef := Z.sqrt (coef x * 10 ^ j); expo := (expo x - j) / 2 |}
           precision.

(** [x.pow(y)] for a positive [x] and an integer [y], which takes the
    exponentiation-by-squaring branch of [toPower]. *)
Definition pow (x : t) (y : Z) : t :=
  match y with
  | Z0 => one
  | Zpos n =>
      if isOne x then x
      else if (y =? 1) then finalise x precision
      else finalise (intPow x n) precision
  | Zneg n =>
      if isOne x then x
      else div one (intPow x n)
  end.

(** [x.toFixed(0)] read back as an integer: [x] rounded half up to no
    decimal place. *)
Definition toFixed0 (x : t) : Z :=
  if 0 <=? expo x then coef x * 10 ^ expo x
  else dropDigits (coef x) (- expo x).

(** Deciding [x^2 < 1.0001^j] on integers. *)
Definition sqLtTickPow (x : t) (j : Z) : bool :=
  let e2 := 2 * expo x in
  let lhs := coef x * coef x * 10 ^ (Z.max e2 0)
             * (if 0 <=? j then 10000 ^ j else 10001 ^ (- j)) in
  let rhs := 10 ^ (Z.max (- e2) 0)
             * (if 0 <=? j then 10001 ^ j else 10000 ^ (- j)) in
  lhs <? rhs.

(** Bisection: [sqLtTickPow x (2 * lo + 1)] is false and
    [sqLtTickPow x (2 * hi + 1)] is true all along. *)
Fixpoint nearestTick_loop (fuel : nat) (x : t) (lo hi : Z) : Z :=
  match fuel with
  | O => hi
  | S fuel' =>
      if hi - lo <=? 1 then hi
      else
        let mid := (lo + hi) / 2 in
        if sqLtTickPow x (2 * mid + 1) then nearestTick_loop fuel' x lo mid
        else nearestTick_loop fuel' x mid hi
  end.

(** Doubling search for the ends of the bisection: the first [hi] among
    [1, 2, 4, ...] with [x^2 < 1.0001^(2 hi + 1)] and the first [lo] among
    [-1, -2, -4, ...] with [1.0001^(2 lo + 1) <= x^2]. *)
Fixpoint upperBracket (fuel : nat) (x : t) (hi : Z) : option Z :=
  match fuel with
  | O => None
  | S fuel' =>
      if sqLtTickPow x (2 * hi + 1) then Some hi
      else upperBracket fuel' x (2 * hi)
  end.

Fixpoint lowerBracket (fuel : nat) (x : t) (lo : Z) : option Z :=
  match fuel with
  | O => None
  | S fuel' =>
      if sqLtTickPow x (2 * lo + 1) then lowerBracket fuel' x (2 * lo)
      else Some lo
  end.

(** [Math.round(x.log(1.0001).toNumber())] for a positive [x]: decimal.js
    returns the logarithm rounded to [precision] digits; the model takes
    the integer nearest to the exact logarithm, the [k] with
    [1.0001^(2k-1) <= x^2 < 1.0001^(2k+1)], searched between
    [-2^20] and [2^20] ([None] outside). *)
Definition roundLogTick (x : t) : option Z :=
  match lowerBracket 21 x (-1), upperBracket 21 x 1 with
  | Some lo, Some hi => Some (nearestTick_loop 22 x lo hi)
  | _, _ => None
  end.

End Decimal.

(** ** The BN/Decimal tick math *)

Module TickMath.

Definition MIN_TICK : Z := -443636.
Definition MAX_TICK : Z := 443636.

Definition tickIndexToSqrtPriceX64 (tick : Z) : result Z :=
  if (tick <? MIN_TICK) || (tick >? MAX_TICK) then
    Throw (OutOfBoundsError tick)
  else
    let price := Decimal.pow Decimal.tickBase tick in
    let sqrtPrice := Decimal.sqrt price in
    let sqrtPriceX64 :=
      Decimal.times sqrtPrice (Decimal.pow (Decimal.ofZ 2) 64) in
    Ok (Decimal.toFixed0 sqrtPriceX64).

(** The result is a JavaScript number: [None] stands for the infinities
    and NaN (a zero argument gives [-Infinity]).  The sign of the argument
    is lost when the quotient is squared. *)
Definition sqrtPriceX64ToTickIndex (sqrtPriceX64 : Z) : option Z :=
  if sqrtPriceX64 =? 0 then None
  else
    let sqrtPriceDecimal :=
      Decimal.div (Decimal.ofZ (Z.abs sqrtPriceX64))
                  (Decimal.pow (Decimal.ofZ 2) 64) in
    let price := Decimal.pow sqrtPriceDecimal 2 in
    Decimal.roundLogTick price.

End TickMath.

(** ** Real values

    The accuracy of the decimal computations is stated on real numbers:
    [val x] is the value of a decimal and [within rho a b] says that [a]
    and [b] are positive and each is at most [rho] times the other. *)

Definition val (x : Decimal.t) : R :=
  (IZR (Decimal.coef x) * powerRZ 10 (Decimal.expo x))%R.

Definition within (rho a b : R) : Prop :=
  (0 < a /\ 0 < b /\ a <= rho * b /\ b <= rho * a)%R.

(** The tick base 1.0001. *)
Definition tickBaseR : R := (10001 / 10000)%R.

Definition ceilDiv (a b : Z) : Z := - ((- a) / b).

(** An upper bound of [1.0001^n * 10^40], by squaring and multiplying on
    the bits of [n] with every quotient rounded up. *)
Fixpoint powUp (n : positive) : Z :=
  match n with
  | xH => 10001 * 10 ^ 36
  | xO p => let u := powUp p in ceilDiv (u * u) (10 ^ 40)
  | xI p =>
      let u := powUp p in
      ceilDiv (ceilDiv (u * u) (10 ^ 40) * 10001) 10000
  end.

(** [approxZ m a b]: the integers [a] and [b] are within a factor
    [1 + 1/m] of each other. *)
Definition approxZ (m a b : Z) : Prop :=
  a * m <= (m + 1) * b /\ b * m <= (m + 1) * a.

(** One rounding to 20 digits. *)
Definition rho20 : R := (1 + / IZR (10 ^ 19))%R.

(** One cut to seven words. *)
Definition rhoCut : R := (1 + / IZR (10 ^ 42))%R.

(** Accuracy of [pow]: two roundings, and two cuts for each unit of the
    exponent. *)
Definition rhoPow (y : Z) : R :=
  (rho20 * rho20 * rhoCut ^ (2 * Z.abs_nat y))%R.

(** All the cuts of one power, for a tick within the bounds. *)
Definition rhoCuts : R := (1 + / IZR (10 ^ 35))%R.

(** The accuracy of the whole conversion. *)
Definition rhoTick : R := (1 + / IZR (10 ^ 8))%R.

(** The decimal that [tickIndexToSqrtPriceX64] rounds to an integer. *)
Definition sqrtPriceX64Decimal (tick : Z) : Decimal.t :=
  Decimal.times (Decimal.sqrt (Decimal.pow Decimal.tickBase tick))
                (Decimal.pow (Decimal.ofZ 2) 64).

(** ** Snapshots of the decision scenarios *)

Definition scenarioPool (tick : Z) : Pool.t :=
  {| Pool.id := "0xpool"; Pool.coinTypeA := "0x2::sui::SUI";
     Pool.coinTypeB := "0x5d4b::coin::COIN";
     Pool.currentSqrtPrice := "18446744073709551616";
     Pool.currentTick := tick; Pool.tickSpacing := 60; Pool.feeRate := 3000 |}.

Definition scenarioPosition (lower upper : Z) : Position.t :=
  {| Position.id := "0xposition"; Position.poolId := "0xpool";
     Position.tickLower := lower; Position.tickUpper := upper;
     Position.liquidity := "1000000";
     Position.coinA := "0x2::sui::SUI";
     Position.coinB := "0x5d4b::coin::COIN" |}.

Definition defaultConfig : BotConfig.t :=
  {| BotConfig.rebalanceThresholdPercent := 2;
     BotConfig.rangeWidthPercent := 5;
     BotConfig.maxSlippagePercent := 1 |}.


(** A tick-native width: 50 ticks of half width for each percent. *)
Definition tickNativeHalfWidth (widthPercent : Q) : Z :=
  Qfloor (widthPercent * 50).


(** ** The exported tick math and the price of a sqrt price *)

Module ClmmTickMath.

Definition tickIndexToSqrtPriceX64 : Z -> result Z :=
  TickMath.tickIndexToSqrtPriceX64.

Definition sqrtPriceX64ToTickIndex : Z -> option Z :=
  TickMath.sqrtPriceX64ToTickIndex.

(** [sqrtPriceX64ToPrice] on a positive sqrt price, given as a BN or as
    the decimal string of one. *)
Definition sqrtPriceX64ToPrice (sqrtPriceX64 decimalsA decimalsB : Z)
  : Decimal.t :=
  let sqrtPrice :=
    Decimal.div (Decimal.ofZ sqrtPriceX64) (Decimal.pow (Decimal.ofZ 2) 64) in
  let price := Decimal.pow sqrtPrice 2 in
  let decimalAdjustment :=
    Decimal.pow (Decimal.ofZ 10) (decimalsB - decimalsA) in
  Decimal.times price decimalAdjustment.

End ClmmTickMath.

(** ** The pool and position entities

    The classes of [entities/] are known through the objects that
    [Position.spec.ts] builds and the fields that [poolHelper.ts] and
    [collectFees.ts] read; the records hold those fields. *)

Module Entities.

Module Coin.
Record t : Type := mk {
  coinType : string;
  decimals : Z;
  symbol : string
}.
End Coin.

Module PoolReward.
Record t : Type := mk {
  coin : Coin.t
}.
End PoolReward.

Module Pool.
Record t : Type := mk {
  id : string;
  coinX : Coin.t;
  coinY : Coin.t;
  poolRewards : list PoolReward.t;
  sqrtPriceX64 : string;
  tickCurrent : Z;
  tickSpacing : Z
}.
End Pool.

Module RewardInfo.
Record t : Type := mk {
  coinsOwedReward : string;
  rewardGrowthInsideLast : string
}.
End RewardInfo.

Module Position.
Record t : Type := mk {
  id : string;
  owner : string;
  pool : Pool.t;
  tickLower : Z;
  tickUpper : Z;
  liquidity : string;
  coinsOwedX : string;
  coinsOwedY : string;
  rewardInfos : list RewardInfo.t
}.
End Position.

End Entities.

(** ** [utils/poolHelper.ts] *)

(** [Math.round]: the nearest integer, the larger one on a tie. *)
Definition Math_round (x : Q) : Z := Qfloor (x + (1 # 2)).

Module PoolHelper.
Section WithBN.

(** [new BN(s)] on the decimal string of the pool. *)
Variable BN : string -> Z.

(** [closestActiveRange(pool, multiplier)] for a whole number of spacings
    and a spacing other than 0.  The quotient that [Math.round] receives
    is the exact one: the double that JavaScript computes rounds to the
    same integer as long as [2 * tickCurrent - multiplier * tickSpacing]
    stays below [2^53] in magnitude.  The sqrt price of the current tick
    is computed for the comparison and its error leaves the function. *)
Definition closestActiveRange (pool : Entities.Pool.t) (multiplier : Z)
  : result (Z * Z) :=
  let tickSpacing := Entities.Pool.tickSpacing pool in
  let tickCurrent := Entities.Pool.tickCurrent pool in
  let halfRange := (inject_Z (multiplier * tickSpacing) / 2)%Q in
  let candidateTickLower :=
    Math_round ((inject_Z tickCurrent - halfRange) / inject_Z tickSpacing)
    * tickSpacing in
  let currentSqrtPriceX64 := BN (Entities.Pool.sqrtPriceX64 pool) in
  tickSqrtPriceX64 <- ClmmTickMath.tickIndexToSqrtPriceX64 tickCurrent ;;
  let lowerTick :=
    if (currentSqrtPriceX64 <? tickSqrtPriceX64)
       && (candidateTickLower =? tickCurrent)
    then candidateTickLower - tickSpacing
    else candidateTickLower in
  Ok (lowerTick, lowerTick + multiplier * tickSpacing).

(** [isOutOfRange(position, multiplier)]. *)
Definition isOutOfRange (position : Entities.Position.t) (multiplier : Z)
  : result bool :=
  activeTicks <- closestActiveRange (Entities.Position.pool position)
                                    multiplier ;;
  Ok (negb (Entities.Position.tickLower position =? fst activeTicks)
      || negb (Entities.Position.tickUpper position =? snd activeTicks)).

End WithBN.
End PoolHelper.

(** [new BN(s)] on the strings of decimal digits that the pools of the
    examples carry. *)
Definition digitsBN (s : string) : Z :=
  match BigIntOfDigits s with Some z => z | None => 0 end.

Definition examplePool (sqrtPriceX64 : string) (tickCurrent tickSpacing : Z)
  : Entities.Pool.t :=
  Entities.Pool.mk "0xtest_pool"
    (Entities.Coin.mk "0x2::sui::SUI" 9 "SUI")
    (Entities.Coin.mk "0x5d4b::coin::COIN" 6 "USDC")
    nil sqrtPriceX64 tickCurrent tickSpacing.

Definition examplePosition (pool : Entities.Pool.t) (tickLower tickUpper : Z)
  : Entities.Position.t :=
  Entities.Position.mk "0xtest_position" "0xtest_owner" pool
    tickLower tickUpper "1000000" "0" "0" nil.

(** ** Programmable transaction blocks

    The [Transaction] of [@mysten/sui] as the code uses it: every
    [moveCall], [mergeCoins] and [transferObjects] appends one command,
    and the value a [moveCall] returns names the results of the command by
    its index ([Result], or [NestedResult] for one component). *)

Module Ptb.

Inductive Argument : Type :=
| Object (id : string)
| PureBool (b : bool)
| PureU32 (n : Z)
| PureU64 (n : string)
| PureU128 (n : string)
| PureAddress (a : string)
| Result (command : nat)
| NestedResult (command : nat) (index : nat).

Inductive Command : Type :=
| MoveCall (target : string) (typeArguments : list string)
    (arguments : list Argument)
| MergeCoins (destination : Argument) (sources : list Argument)
| TransferObjects (objects : list Argument) (address : Argument).

Definition t : Type := list Command.

(** Appending a command gives the transaction and the index of the
    command. *)
Definition add (tx : t) (c : Command) : t * nat :=
  ((tx ++ c :: nil)%list, length tx).

(** The commands an argument refers to. *)
Definition reference (a : Argument) : option nat :=
  match a with
  | Result n => Some n
  | NestedResult n _ => Some n
  | _ => None
  end.

Definition arguments_of (c : Command) : list Argument :=
  match c with
  | MoveCall _ _ args => args
  | MergeCoins destination sources => destination :: sources
  | TransferObjects objects address => (objects ++ address :: nil)%list
  end.

Definition isMoveCall (c : Command) : bool :=
  match c with
  | MoveCall _ _ _ => true
  | _ => false
  end.

(** Every result that command [i] of [tx] uses is the result of a move
    call that stands before it. *)
Definition refersBack (tx : t) (i : nat) (c : Command) : bool :=
  forallb (fun a =>
             match reference a with
             | Some n =>
                 (n <? i)%nat
                 && match nth_error tx n with
                    | Some c' => isMoveCall c'
                    | None => false
                    end
             | None => true
             end)
          (arguments_of c).

Fixpoint wellFormed_from (tx : t) (i : nat) (rest : list Command) : bool :=
  match rest with
  | nil => true
  | c :: rest' => refersBack tx i c && wellFormed_from tx (S i) rest'
  end.

Definition wellFormed (tx : t) : bool := wellFormed_from tx 0 tx.

(** A value that names a result of a move call of [tx]. *)
Definition namesMoveCall (tx : t) (a : Argument) : bool :=
  match reference a with
  | Some n =>
      match nth_error tx n with
      | Some c => isMoveCall c
      | None => false
      end
  | None => false
  end.

End Ptb.

(** ** [execution/collectFees.ts] *)

Module CollectFees.

(** The two errors of [collectReward], told apart by their messages. *)
Inductive Thrown : Type :=
| NoReward (rewardIndex : nat)
| NoPoolReward (rewardIndex : nat).

Section WithCetusConfig.

(** The fields of [getCetusConfig()]. *)
Variable packageId : string.
Variable globalConfigId : string.

Definition collectFeeCall (position : Entities.Position.t) : Ptb.Command :=
  let pool := Entities.Position.pool position in
  Ptb.MoveCall (packageId ++ "::pool::collect_fee")%string
    (Entities.Coin.coinType (Entities.Pool.coinX pool)
     :: Entities.Coin.coinType (Entities.Pool.coinY pool) :: nil)
    (Ptb.Object globalConfigId
     :: Ptb.Object (Entities.Pool.id pool)
     :: Ptb.Object (Entities.Position.id position)
     :: Ptb.PureBool true :: nil).

Definition collectFees (position : Entities.Position.t) (tx : Ptb.t)
  : Ptb.t * (Ptb.Argument * Ptb.Argument) :=
  let (tx', i) := Ptb.add tx (collectFeeCall position) in
  (tx', (Ptb.NestedResult i 0, Ptb.NestedResult i 1)).

Definition collectRewardCall (position : Entities.Position.t)
  (poolReward : Entities.PoolReward.t) : Ptb.Command :=
  let pool := Entities.Position.pool position in
  let rewardType :=
    Entities.Coin.coinType (Entities.PoolReward.coin poolReward) in
  Ptb.MoveCall (packageId ++ "::pool::collect_reward")%string
    (Entities.Coin.coinType (Entities.Pool.coinX pool)
     :: Entities.Coin.coinType (Entities.Pool.coinY pool)
     :: rewardType :: nil)
    (Ptb.Object globalConfigId
     :: Ptb.Object (Entities.Pool.id pool)
     :: Ptb.Object (Entities.Position.id position)
     :: Ptb.Object rewardType
     :: Ptb.PureBool true
     :: Ptb.Object "0x6" :: nil).

(** [collectReward(position, tx, rewardIndex)] for an index that is a
    natural number.  Both checks come before the move call: an error
    leaves the transaction as it was. *)
Definition collectReward (position : Entities.Position.t) (tx : Ptb.t)
  (rewardIndex : nat) : Thrown + Ptb.t * Ptb.Argument :=
  match nth_error (Entities.Position.rewardInfos position) rewardIndex with
  | None => inl (NoReward rewardIndex)
  | Some _ =>
      match nth_error
              (Entities.Pool.poolRewards (Entities.Position.pool position))
              rewardIndex with
      | None => inl (NoPoolReward rewardIndex)
      | Some poolReward =>
          let (tx', i) := Ptb.add tx (collectRewardCall position poolReward) in
          inr (tx', Ptb.NestedResult i 0)
      end
  end.

(** The loop of [collectAllRewards] from index [i] on, with [count]
    indices left; an error of [collectReward] is logged and the loop goes
    on. *)
Fixpoint collectAllRewards_loop (position : Entities.Position.t)
  (count i : nat) (tx : Ptb.t) (rewards : list Ptb.Argument)
  : Ptb.t * list Ptb.Argument :=
  match count with
  | O => (tx, rewards)
  | S count' =>
      match collectReward position tx i with
      | inr (tx', reward) =>
          collectAllRewards_loop position count' (S i) tx'
            (rewards ++ reward :: nil)%list
      | inl _ =>
          collectAllRewards_loop position count' (S i) tx rewards
      end
  end.

Definition collectAllRewards (position : Entities.Position.t) (tx : Ptb.t)
  : Ptb.t * list Ptb.Argument :=
  collectAllRewards_loop position
    (length (Entities.Position.rewardInfos position)) 0%nat tx nil.

End WithCetusConfig.
End CollectFees.

(** The pool of [Position.spec.ts] with one reward, and a position on it
    with the two reward infos of the tests. *)
Definition rewardPool : Entities.Pool.t :=
  Entities.Pool.mk "0xtest_pool"
    (Entities.Coin.mk "0x2::sui::SUI" 9 "SUI")
    (Entities.Coin.mk "0x5d4b::coin::COIN" 6 "USDC")
    (Entities.PoolReward.mk (Entities.Coin.mk "0x6864::cetus::CETUS" 9 "CETUS")
     :: nil)
    "18446744073709551616" 0 60.

Definition rewardPosition : Entities.Position.t :=
  Entities.Position.mk "0xtest_position" "0xtest_owner" rewardPool
    (-1000) 1000 "1000000" "0" "0"
    (Entities.RewardInfo.mk "1000" "0"
     :: Entities.RewardInfo.mk "2000" "0" :: nil).

(** ** Execution with retries

    [executeWithTypeArgRetry] and [executeTransactionWithoutSimulation] of
    the Sui client service.  The normalisation of the type arguments
    rewrites the transaction and cannot fail ([normalizeTypeArguments]
    catches its own errors) and [isTypeArgError] only chooses the wording
    of a log line: the model leaves both out and keeps the calls to the
    client and the waits between them. *)

Module SuiClientService.

Module Effects.
Record t : Type := mk {
  status : string;
  error : option string
}.
End Effects.

Module Response.
Record t : Type := mk {
  digest : string;
  effects : option Effects.t
}.
End Response.

Section WithClient.

(** The two fields of [this.config] that the retry reads, as whole
    numbers of milliseconds. *)
Variable minRetryDelayMs : Z.
Variable maxRetryDelayMs : Z.

(** [client.signAndExecuteTransaction] at its n-th call, counted from 0:
    the response, or the error the promise rejects with. *)
Variable signAndExecuteTransaction : nat -> result Response.t.

(** [x || d] on a number. *)
Definition orElse (x d : Z) : Z := if x =? 0 then d else x.

Definition baseDelay : Z := orElse minRetryDelayMs 1000.
Definition maxDelay : Z := orElse maxRetryDelayMs 30000.

(** [Math.min(baseDelay * Math.pow(2, attempt), maxDelay)]. *)
Definition retryDelay (attempt : nat) : Z :=
  Z.min (baseDelay * 2 ^ Z.of_nat attempt) maxDelay.

(** [result.effects?.status.error || 'Unknown error'] behind the fixed
    prefix. *)
Definition failureMessage (response : Response.t) : string :=
  ("Transaction execution failed: "
   ++ match Response.effects response with
      | Some effects =>
          match Effects.error effects with
          | Some message =>
              if String.eqb message "" then "Unknown error" else message
          | None => "Unknown error"
          end
      | None => "Unknown error"
      end)%string.

(** The body of the [try] block at one attempt. *)
Definition attemptOnce (attempt : nat) : result Response.t :=
  response <- signAndExecuteTransaction attempt ;;
  match Response.effects response with
  | Some effects =>
      if String.eqb (Effects.status effects) "success" then Ok response
      else Throw (RpcError (failureMessage response))
  | None => Throw (RpcError (failureMessage response))
  end.

(** The loop from [attempt] on, with [retriesLeft = maxRetries - attempt];
    the second component lists the waits in milliseconds, oldest first.
    After the failure of the last attempt the loop ends and the error of
    that attempt is thrown. *)
Fixpoint executeWithTypeArgRetry_from (retriesLeft attempt : nat)
  (waits : list Z) : result Response.t * list Z :=
  match attemptOnce attempt with
  | Ok response => (Ok response, waits)
  | Throw lastError =>
      match retriesLeft with
      | O => (Throw lastError, waits)
      | S retriesLeft' =>
          executeWithTypeArgRetry_from retriesLeft' (S attempt)
            (waits ++ retryDelay attempt :: nil)%list
      end
  end.

Definition executeWithTypeArgRetry (maxRetries : nat)
  : result Response.t * list Z :=
  executeWithTypeArgRetry_from maxRetries 0%nat nil.

Definition executeTransactionWithoutSimulation
  : result Response.t * list Z :=
  executeWithTypeArgRetry 5%nat.

End WithClient.
End SuiClientService.

(** A client that fails twice and then succeeds, and one that always
    fails. *)
Definition successResponse : SuiClientService.Response.t :=
  SuiClientService.Response.mk "0xdigest"
    (Some (SuiClientService.Effects.mk "success" None)).

Definition failingTwice (call : nat)
  : result SuiClientService.Response.t :=
  if (call <? 2)%nat then Throw (RpcError "fetch failed")
  else Ok successResponse.

Definition alwaysFailing (call : nat)
  : result SuiClientService.Response.t :=
  Ok (SuiClientService.Response.mk "0xdigest"
        (Some (SuiClientService.Effects.mk "failure"
                 (Some "InsufficientGas"%string)))).

(** ** [services/bot.ts] *)

Module RebalancingBot.

(** What one pass of the bot does that can be seen from outside: the
    log line of a pass without action, the call of
    [rebalanceService.rebalance] and the error the pass logs. *)
Inductive Event : Type :=
| NoAction (reason : string)
| RebalanceCall (pool : Pool.t) (position : Position.t)
| ErrorLogged (error : Error).

Section WithServices.

Variable isTickInRange : Z -> Z -> Z -> bool.
Variable calculatePriceDeviation : Z -> Z -> Z -> Q.
Variable config : BotConfig.t.

(** [cetusService.getPool()] and [cetusService.getPosition()] at the n-th
    reading of the chain, counted from 0. *)
Variable getPool : nat -> result Pool.t.
Variable getPosition : nat -> result Position.t.

(** The outcome of [rebalanceService.rebalance(pool, position)]. *)
Variable rebalance : Pool.t -> Position.t -> result unit.

(** [PositionMonitor.getCurrentState]. *)
Definition getCurrentState (reading : nat) : result (Pool.t * Position.t) :=
  pool <- getPool reading ;;
  position <- getPosition reading ;;
  Ok (pool, position).

(** [checkAndRebalance] when [reading] readings were made before: the
    events of the pass and the number of readings after it.  Every error
    is caught and logged. *)
Definition checkAndRebalance (reading : nat) : list Event * nat :=
  match PositionMonitor.checkRebalanceNeeded isTickInRange
          calculatePriceDeviation config
          (getPool reading) (getPosition reading) with
  | Throw error => (ErrorLogged error :: nil, S reading)
  | Ok decision =>
      if negb (RebalanceDecision.shouldRebalance decision) then
        (NoAction (RebalanceDecision.reason decision) :: nil, S reading)
      else
        match getCurrentState (S reading) with
        | Throw error => (ErrorLogged error :: nil, S (S reading))
        | Ok (pool, position) =>
            match rebalance pool position with
            | Ok _ => (RebalanceCall pool position :: nil, S (S reading))
            | Throw error =>
                (RebalanceCall pool position :: ErrorLogged error :: nil,
                 S (S reading))
            end
        end
  end.

End WithServices.
End RebalancingBot.

(** ** The atomic rebalance transaction of [rebalanceService.ts.backup]

    [buildRebalancePTB] and [addSwapIfNeeded].  The [pure] encoders are
    taken on values that fit their types (ticks below [2^32] in
    magnitude, amounts below [2^64]); their own range errors are outside
    the model. *)

Module RebalanceTransaction.



Section WithServices.

Variable BigInt : string -> option Z.
Variable tickToSqrtPrice : Z -> result Z.

(** [sdk.sdkOptions.cetus_config] and [suiClient.getAddress()]. *)
Variable packageId : string.
Variable globalConfigId : string.
Variable address : string.

Definition poolScript (name : string) : string :=
  (packageId ++ "::pool_script::" ++ name)%string.

Definition typeArguments (pool : Pool.t) : list string :=
  Pool.coinTypeA pool :: Pool.coinTypeB pool :: nil.






End WithServices.

End RebalanceTransaction.

(** ** The step-by-step rebalance of [services/rebalanceService.ts]

    [rebalance] sends one transaction for each step.  The second
    component of a run lists the transactions handed to
    [suiClient.executeTransaction], oldest first. *)

Module RebalanceSteps.

Section WithServices.

Variable calculateTickRange : Z -> Q -> Z -> result TickRange.t.
Variable config : BotConfig.t.

(** [sdk.sdkOptions.cetus_config]. *)
Variable packageId : string.
Variable globalConfigId : string.

(** [suiClient.checkGasPrice()]. *)
Variable checkGasPrice : result unit.

(** [suiClient.executeTransaction(tx)] on the n-th transaction handed to
    the client, counted from 0. *)
Variable executeTransaction :
  nat -> Ptb.t -> result SuiClientService.Response.t.

Definition poolScript (name : string) : string :=
  (packageId ++ "::pool_script::" ++ name)%string.

Definition removeLiquidityTx (position : Position.t) : Ptb.t :=
  Ptb.MoveCall (poolScript "remove_liquidity")
    (Position.coinA position :: Position.coinB position :: nil)
    (Ptb.Object globalConfigId
     :: Ptb.Object (Position.poolId position)
     :: Ptb.Object (Position.id position)
     :: Ptb.PureU128 (Position.liquidity position)
     :: Ptb.PureU64 "0"
     :: Ptb.PureU64 "0"
     :: Ptb.Object "0x6" :: nil)
  :: nil.

Definition collectFeesTx (position : Position.t) : Ptb.t :=
  Ptb.MoveCall (poolScript "collect_fee")
    (Position.coinA position :: Position.coinB position :: nil)
    (Ptb.Object globalConfigId
     :: Ptb.Object (Position.poolId position)
     :: Ptb.Object (Position.id position)
     :: Ptb.PureBool true :: nil)
  :: nil.

(** The transaction of [addLiquidity]: it opens the position and holds no
    other command. *)
Definition addLiquidityTx (pool : Pool.t) (tickLower tickUpper : Z) : Ptb.t :=
  Ptb.MoveCall (poolScript "open_position")
    (Pool.coinTypeA pool :: Pool.coinTypeB pool :: nil)
    (Ptb.Object globalConfigId
     :: Ptb.Object (Pool.id pool)
     :: Ptb.PureU32 (Z.abs tickLower)
     :: Ptb.PureBool (tickLower <? 0)
     :: Ptb.PureU32 (Z.abs tickUpper)
     :: Ptb.PureBool (tickUpper <? 0)
     :: Ptb.Object "0x6" :: nil)
  :: nil.

(** One of the three private steps: the transaction is handed to the
    client and an error is thrown again. *)
Definition send (tx : Ptb.t) (sent : list Ptb.t)
  : result unit * list Ptb.t :=
  (_ <- executeTransaction (length sent) tx ;; Ok tt,
   (sent ++ tx :: nil)%list).

Definition rebalance (pool : Pool.t) (position : Position.t)
  : result unit * list Ptb.t :=
  match checkGasPrice with
  | Throw error => (Throw error, nil)
  | Ok _ =>
      match send (removeLiquidityTx position) nil with
      | (Throw error, sent) => (Throw error, sent)
      | (Ok _, sent) =>
          match send (collectFeesTx position) sent with
          | (Throw error, sent) => (Throw error, sent)
          | (Ok _, sent) =>
              match calculateTickRange (Pool.currentTick pool)
                      (BotConfig.rangeWidthPercent config)
                      (Pool.tickSpacing pool) with
              | Throw error => (Throw error, sent)
              | Ok newRange =>
                  send (addLiquidityTx pool
                          (TickRange.tickLower newRange)
                          (TickRange.tickUpper newRange)) sent
              end
          end
      end
  end.

End WithServices.
End RebalanceSteps.

(** A client on which the second transaction fails. *)
Definition secondFails (call : nat) (tx : Ptb.t)
  : result SuiClientService.Response.t :=
  if (call =? 1)%nat then Throw (RpcError "fetch failed")
  else Ok successResponse.

(** * Properties *)

(** ** Comparisons and rendering of numbers *)

Lemma Qlt_bool_iff (a b : Q) : Qlt_bool a b = true <-> (a < b)%Q.
Proof.
  unfold Qlt_bool. rewrite negb_true_iff. split; intro H.
  - apply Qnot_le_lt. intro L. apply Qle_bool_iff in L. congruence.
  - destruct (Qle_bool b a) eqn:E; [|reflexivity].
    apply Qle_bool_iff in E. exfalso. exact (Qlt_not_le _ _ H E).
Qed.

Lemma Qlt_bool_false_iff (a b : Q) : Qlt_bool a b = false <-> (b <= a)%Q.
Proof.
  unfold Qlt_bool. rewrite negb_false_iff. apply Qle_bool_iff.
Qed.







(** ** The rebalance decision *)

Section DecisionFacts.

Variable isTickInRange : Z -> Z -> Z -> bool.
Variable calculatePriceDeviation : Z -> Z -> Z -> Q.
Variable config : BotConfig.t.
Variable pool : Pool.t.
Variable position : Position.t.

Let decision : RebalanceDecision.t :=
  PositionMonitor.evaluate isTickInRange calculatePriceDeviation config
                           pool position.

Let deviation : Q :=
  calculatePriceDeviation (Pool.currentTick pool)
                          (Position.tickLower position)
                          (Position.tickUpper position).

Lemma checkRebalanceNeeded_ok :
  PositionMonitor.checkRebalanceNeeded isTickInRange calculatePriceDeviation
    config (Ok pool) (Ok position) = Ok decision.
Proof. reflexivity. Qed.

Lemma evaluate_in_range :
  isTickInRange (Pool.currentTick pool) (Position.tickLower position)
                (Position.tickUpper position) = true ->
  RebalanceDecision.shouldRebalance decision = false /\
  RebalanceDecision.priceDeviation decision = 0%Q.
Proof.
  intro H. unfold decision, PositionMonitor.evaluate. rewrite H. auto.
Qed.

Lemma evaluate_out_of_range :
  isTickInRange (Pool.currentTick pool) (Position.tickLower position)
                (Position.tickUpper position) = false ->
  RebalanceDecision.priceDeviation decision = deviation /\
  RebalanceDecision.shouldRebalance decision =
    negb (Qlt_bool (Qabs deviation)
                   (BotConfig.rebalanceThresholdPercent config)).
Proof.
  intro H. unfold decision, PositionMonitor.evaluate. rewrite H.
  fold deviation. destruct (Qlt_bool _ _); auto.
Qed.


Lemma evaluate_echo :
  RebalanceDecision.currentTick decision = Pool.currentTick pool /\
  RebalanceDecision.tickLower decision = Position.tickLower position /\
  RebalanceDecision.tickUpper decision = Position.tickUpper position.
Proof.
  unfold decision, PositionMonitor.evaluate.
  destruct (isTickInRange _ _ _); [auto|].
  destruct (Qlt_bool _ _); auto.
Qed.

End DecisionFacts.

(** C1. A position whose range holds the current tick, lower bound
    included and upper bound excluded, is never rebalanced and reports a
    deviation of 0, whatever the threshold of the configuration. *)
Theorem in_range_no_rebalance
    (calculatePriceDeviation : Z -> Z -> Z -> Q) (config : BotConfig.t)
    (pool : Pool.t) (position : Position.t) :
  Position.tickLower position <= Pool.currentTick pool
    < Position.tickUpper position ->
  exists d,
    PositionMonitor.checkRebalanceNeeded BotTickMath.isTickInRange
      calculatePriceDeviation config (Ok pool) (Ok position) = Ok d /\
    RebalanceDecision.shouldRebalance d = false /\
    RebalanceDecision.priceDeviation d = 0%Q.
Proof.
  intros [Hlo Hhi]. eexists. split; [apply checkRebalanceNeeded_ok|].
  apply evaluate_in_range. unfold BotTickMath.isTickInRange.
  apply andb_true_iff. split; [apply Z.leb_le | apply Z.ltb_lt]; assumption.
Qed.

(** Decision scenario A: tick 0 in the range [-1000, 1000]. *)
Lemma in_range_no_rebalance_scenario_A :
  exists d,
    PositionMonitor.checkRebalanceNeeded BotTickMath.isTickInRange
      BotTickMath.calculatePriceDeviation defaultConfig
      (Ok (scenarioPool 0)) (Ok (scenarioPosition (-1000) 1000)) = Ok d /\
    RebalanceDecision.shouldRebalance d = false /\
    RebalanceDecision.priceDeviation d = 0%Q.
Proof.
  apply (in_range_no_rebalance BotTickMath.calculatePriceDeviation
           defaultConfig (scenarioPool 0) (scenarioPosition (-1000) 1000)).
  simpl. lia.
Defined.

(** C2. Out of range, the decision carries the computed deviation and
    triggers exactly when the absolute deviation reaches the threshold;
    strictly below the threshold it does not trigger. *)
Theorem out_of_range_threshold
    (isTickInRange : Z -> Z -> Z -> bool)
    (calculatePriceDeviation : Z -> Z -> Z -> Q)
    (config : BotConfig.t) (pool : Pool.t) (position : Position.t) :
  isTickInRange (Pool.currentTick pool) (Position.tickLower position)
                (Position.tickUpper position) = false ->
  let deviation :=
    calculatePriceDeviation (Pool.currentTick pool)
      (Position.tickLower position) (Position.tickUpper position) in
  let threshold := BotConfig.rebalanceThresholdPercent config in
  exists d,
    PositionMonitor.checkRebalanceNeeded isTickInRange
      calculatePriceDeviation config (Ok pool) (Ok position) = Ok d /\
    RebalanceDecision.priceDeviation d = deviation /\
    (RebalanceDecision.shouldRebalance d = true <->
     (threshold <= Qabs deviation)%Q) /\
    ((Qabs deviation < threshold)%Q ->
     RebalanceDecision.shouldRebalance d = false).
Proof.
  intros H deviation threshold.
  eexists. split; [apply checkRebalanceNeeded_ok|].
  destruct (evaluate_out_of_range isTickInRange calculatePriceDeviation
              config pool position H) as [Hd Hs].
  fold deviation threshold in Hs, Hd.
  split; [exact Hd|]. rewrite Hs. split.
  - rewrite negb_true_iff. apply Qlt_bool_false_iff.
  - intro L. apply Qlt_bool_iff in L. rewrite L. reflexivity.
Qed.

(** Decision scenario B: tick 50 under the range [100, 2000] drifted by
    less than the 2% threshold. *)
Lemma out_of_range_threshold_scenario_B :
  exists d,
    PositionMonitor.checkRebalanceNeeded BotTickMath.isTickInRange
      BotTickMath.calculatePriceDeviation defaultConfig
      (Ok (scenarioPool 50)) (Ok (scenarioPosition 100 2000)) = Ok d /\
    RebalanceDecision.priceDeviation d =
      BotTickMath.calculatePriceDeviation 50 100 2000 /\
    (RebalanceDecision.shouldRebalance d = true <->
     (2 <= Qabs (BotTickMath.calculatePriceDeviation 50 100 2000))%Q) /\
    ((Qabs (BotTickMath.calculatePriceDeviation 50 100 2000) < 2)%Q ->
     RebalanceDecision.shouldRebalance d = false).
Proof.
  apply (out_of_range_threshold BotTickMath.isTickInRange
           BotTickMath.calculatePriceDeviation defaultConfig
           (scenarioPool 50) (scenarioPosition 100 2000)).
  reflexivity.
Defined.

(** C10. On every branch the decision repeats the current tick of the pool
    snapshot and the two bounds of the position snapshot. *)
Theorem decision_echoes_inputs
    (isTickInRange : Z -> Z -> Z -> bool)
    (calculatePriceDeviation : Z -> Z -> Z -> Q)
    (config : BotConfig.t) (pool : Pool.t) (position : Position.t) :
  exists d,
    PositionMonitor.checkRebalanceNeeded isTickInRange
      calculatePriceDeviation config (Ok pool) (Ok position) = Ok d /\
    RebalanceDecision.currentTick d = Pool.currentTick pool /\
    RebalanceDecision.tickLower d = Position.tickLower position /\
    RebalanceDecision.tickUpper d = Position.tickUpper position.
Proof.
  eexists. split; [apply checkRebalanceNeeded_ok|]. apply evaluate_echo.
Qed.



(** ** Expected amounts *)

(** C3. With boundary sqrt prices [lower < upper], the expected amounts
    fall in one of three regimes chosen by the current sqrt price: at or
    below [lower] only token A over the whole interval, at or above
    [upper] only token B over the whole interval, and strictly between,
    both, the current sqrt price standing for the lower boundary in
    amount A and for the upper boundary in amount B. *)
Theorem expected_amounts_regimes
    (BigInt : string -> option Z)
    (tickToSqrtPrice : Z -> result Z)
    (getAmountAFromLiquidity getAmountBFromLiquidity : Z -> Z -> Z -> result Z)
    (pool : Pool.t) (position : Position.t)
    (current lower upper liquidity : Z) :
  BigInt (Pool.currentSqrtPrice pool) = Some current ->
  tickToSqrtPrice (Position.tickLower position) = Ok lower ->
  tickToSqrtPrice (Position.tickUpper position) = Ok upper ->
  BigInt (Position.liquidity position) = Some liquidity ->
  lower < upper ->
  let expected :=
    RebalanceService.calculateExpectedAmounts BigInt tickToSqrtPrice
      getAmountAFromLiquidity getAmountBFromLiquidity pool position in
  (current <= lower ->
   expected =
     (amountA <- getAmountAFromLiquidity lower upper liquidity ;;
      Ok {| Amounts.amountA := amountA; Amounts.amountB := 0 |})) /\
  (upper <= current ->
   expected =
     (amountB <- getAmountBFromLiquidity lower upper liquidity ;;
      Ok {| Amounts.amountA := 0; Amounts.amountB := amountB |})) /\
  (lower < current < upper ->
   expected =
     (amountA <- getAmountAFromLiquidity current upper liquidity ;;
      amountB <- getAmountBFromLiquidity lower current liquidity ;;
      Ok {| Amounts.amountA := amountA; Amounts.amountB := amountB |})).
Proof.
  intros Hc Hl Hu HL Hlt expected. subst expected.
  unfold RebalanceService.calculateExpectedAmounts, RebalanceService.parse.
  rewrite Hc, Hl, Hu, HL. cbn [bind].
  repeat split; intro H.
  - destruct (Z.leb_spec current lower); [reflexivity | lia].
  - destruct (Z.leb_spec current lower); [lia|].
    destruct (Z.geb_spec current upper); [reflexivity | lia].
  - destruct (Z.leb_spec current lower); [lia|].
    destruct (Z.geb_spec current upper); [lia | reflexivity].
Qed.

(** The three regimes with the pool at tick 0, sqrt price [2^64]: a
    position above the price, one around it and one below it. *)
Lemma expected_amounts_examples :
  let expected :=
    RebalanceService.calculateExpectedAmounts BigIntOfDigits
      BotTickMath.tickToSqrtPrice BotTickMath.getAmountAFromLiquidity
      BotTickMath.getAmountBFromLiquidity (scenarioPool 0) in
  expected (scenarioPosition 10 20)
  = Ok {| Amounts.amountA := 499; Amounts.amountB := 0 |} /\
  expected (scenarioPosition (-10) 10)
  = Ok {| Amounts.amountA := 499; Amounts.amountB := 499 |} /\
  expected (scenarioPosition (-20) (-10))
  = Ok {| Amounts.amountA := 0; Amounts.amountB := 499 |}.
Proof.
  intro expected. subst expected.
  assert (H10 : BotTickMath.tickToSqrtPrice 10 = Ok 18455969290605290427)
    by (vm_compute; reflexivity).
  assert (H20 : BotTickMath.tickToSqrtPrice 20 = Ok 18465199121032091053)
    by (vm_compute; reflexivity).
  assert (Hm10 : BotTickMath.tickToSqrtPrice (-10) = Ok 18437523468038800958)
    by (vm_compute; reflexivity).
  assert (Hm20 : BotTickMath.tickToSqrtPrice (-20) = Ok 18428307471288117481)
    by (vm_compute; reflexivity).
  split; [|split].
  - rewrite (proj1 (expected_amounts_regimes BigIntOfDigits
               BotTickMath.tickToSqrtPrice BotTickMath.getAmountAFromLiquidity
               BotTickMath.getAmountBFromLiquidity
               (scenarioPool 0) (scenarioPosition 10 20)
               18446744073709551616 18455969290605290427
               18465199121032091053 1000000
               eq_refl H10 H20 eq_refl ltac:(lia))); [|lia].
    vm_compute. reflexivity.
  - rewrite (proj2 (proj2 (expected_amounts_regimes BigIntOfDigits
               BotTickMath.tickToSqrtPrice BotTickMath.getAmountAFromLiquidity
               BotTickMath.getAmountBFromLiquidity
               (scenarioPool 0) (scenarioPosition (-10) 10)
               18446744073709551616 18437523468038800958
               18455969290605290427 1000000
               eq_refl Hm10 H10 eq_refl ltac:(lia)))); [|lia].
    vm_compute. reflexivity.
  - rewrite (proj1 (proj2 (expected_amounts_regimes BigIntOfDigits
               BotTickMath.tickToSqrtPrice BotTickMath.getAmountAFromLiquidity
               BotTickMath.getAmountBFromLiquidity
               (scenarioPool 0) (scenarioPosition (-20) (-10))
               18446744073709551616 18428307471288117481
               18437523468038800958 1000000
               eq_refl Hm20 Hm10 eq_refl ltac:(lia)))); [|lia].
    vm_compute. reflexivity.
Defined.

(** ** The new range *)

Lemma alignDown_le (t s : Z) : 0 < s -> BotTickMath.alignDown t s <= t.
Proof.
  intro H. unfold BotTickMath.alignDown.
  pose proof (Z.mul_div_le t s H). lia.
Qed.

Lemma alignDown_gt (t s : Z) : 0 < s -> t - s < BotTickMath.alignDown t s.
Proof.
  intro H. unfold BotTickMath.alignDown.
  pose proof (Z.mod_pos_bound t s H). pose proof (Z.div_mod t s). lia.
Qed.

Lemma alignUp_ge (t s : Z) : 0 < s -> t <= BotTickMath.alignUp t s.
Proof.
  intro H. unfold BotTickMath.alignUp.
  pose proof (Z.mul_div_le (- t) s H). lia.
Qed.

Lemma alignUp_lt (t s : Z) : 0 < s -> BotTickMath.alignUp t s < t + s.
Proof.
  intro H. unfold BotTickMath.alignUp.
  pose proof (Z.mod_pos_bound (- t) s H). pose proof (Z.div_mod (- t) s). lia.
Qed.

Lemma rem_alignDown (t s k : Z) :
  0 < s -> Z.rem (BotTickMath.alignDown t s - k * s) s = 0.
Proof.
  intro H. unfold BotTickMath.alignDown.
  replace (t / s * s - k * s) with ((t / s - k) * s) by ring.
  apply Z.rem_mul. lia.
Qed.

Lemma rem_alignUp (t s k : Z) :
  0 < s -> Z.rem (BotTickMath.alignUp t s + k * s) s = 0.
Proof.
  intro H. unfold BotTickMath.alignUp.
  replace (- (- t / s) * s + k * s) with ((- (- t / s) + k) * s) by ring.
  apply Z.rem_mul. lia.
Qed.

Section TickRangeFacts.

Variable halfWidthTicks : Q -> Z.
Variable currentTick : Z.
Variable widthPercent : Q.
Variable tickSpacing : Z.

Hypothesis spacing_pos : 0 < tickSpacing.
Hypothesis half_nonneg : 0 <= halfWidthTicks widthPercent.

Lemma calculateTickRange_ok (r : TickRange.t) :
  BotTickMath.calculateTickRange halfWidthTicks currentTick widthPercent
    tickSpacing = Ok r ->
  Z.rem (TickRange.tickLower r) tickSpacing = 0 /\
  Z.rem (TickRange.tickUpper r) tickSpacing = 0 /\
  TickRange.tickLower r < currentTick < TickRange.tickUpper r.
Proof.
  unfold BotTickMath.calculateTickRange.
  set (half := halfWidthTicks widthPercent) in *.
  assert (Hh : 0 <= half) by exact half_nonneg.
  pose proof (alignDown_le (currentTick - half) tickSpacing spacing_pos) as Hd.
  pose proof (alignUp_ge (currentTick + half) tickSpacing spacing_pos) as Hu.
  pose proof (rem_alignDown (currentTick - half) tickSpacing 0 spacing_pos) as Rd0.
  pose proof (rem_alignDown (currentTick - half) tickSpacing 1 spacing_pos) as Rd1.
  pose proof (rem_alignUp (currentTick + half) tickSpacing 0 spacing_pos) as Ru0.
  pose proof (rem_alignUp (currentTick + half) tickSpacing 1 spacing_pos) as Ru1.
  rewrite Z.mul_0_l, Z.sub_0_r in Rd0. rewrite Z.mul_0_l, Z.add_0_r in Ru0.
  rewrite Z.mul_1_l in Rd1, Ru1.
  destruct (_ && _); [|discriminate].
  intro E. injection E as <-. cbn [TickRange.tickLower TickRange.tickUpper].
  destruct (Z.eqb_spec (BotTickMath.alignDown (currentTick - half) tickSpacing)
                       currentTick);
    destruct (Z.eqb_spec (BotTickMath.alignUp (currentTick + half) tickSpacing)
                         currentTick);
    repeat split; auto; lia.
Qed.

Lemma calculateTickRange_total :
  BotTickMath.MIN_TICK + tickSpacing
    <= currentTick - halfWidthTicks widthPercent ->
  currentTick + halfWidthTicks widthPercent
    <= BotTickMath.MAX_TICK - tickSpacing ->
  exists r,
    BotTickMath.calculateTickRange halfWidthTicks currentTick widthPercent
      tickSpacing = Ok r.
Proof.
  intros Hmin Hmax. unfold BotTickMath.calculateTickRange.
  set (half := halfWidthTicks widthPercent) in *.
  assert (Hh : 0 <= half) by exact half_nonneg.
  pose proof (alignDown_le (currentTick - half) tickSpacing spacing_pos) as Hd.
  pose proof (alignDown_gt (currentTick - half) tickSpacing spacing_pos) as Hd'.
  pose proof (alignUp_ge (currentTick + half) tickSpacing spacing_pos) as Hu.
  pose proof (alignUp_lt (currentTick + half) tickSpacing spacing_pos) as Hu'.
  match goal with
  | |- exists r, (if ?c then _ else _) = _ => assert (Hc : c = true)
  end.
  { destruct (Z.eqb_spec (BotTickMath.alignDown (currentTick - half) tickSpacing)
                         currentTick);
      destruct (Z.eqb_spec (BotTickMath.alignUp (currentTick + half) tickSpacing)
                           currentTick);
      rewrite !andb_true_iff, !Z.leb_le, Z.ltb_lt; lia. }
  rewrite Hc. eauto.
Qed.

(** The alignment guard of [rebalance] lets every such range through. *)
Lemma newRange_guard (config : BotConfig.t) (pool : Pool.t) :
  Pool.currentTick pool = currentTick ->
  Pool.tickSpacing pool = tickSpacing ->
  BotConfig.rangeWidthPercent config = widthPercent ->
  RebalanceService.newRange
    (BotTickMath.calculateTickRange halfWidthTicks) config pool
  = BotTickMath.calculateTickRange halfWidthTicks currentTick widthPercent
      tickSpacing.
Proof.
  intros H1 H2 H3. unfold RebalanceService.newRange. rewrite H1, H2, H3.
  destruct (BotTickMath.calculateTickRange _ _ _ _) as [r|e] eqn:E;
    [|reflexivity].
  cbn [bind]. destruct (calculateTickRange_ok r E) as (Hl & Hu & _).
  unfold RebalanceService.misaligned. rewrite Hl, Hu.
  destruct (Z.eqb_spec tickSpacing 0); [lia | reflexivity].
Qed.

End TickRangeFacts.

(** C8. For a positive tick spacing and a non-negative half width, a
    range returned by [calculateTickRange] has both bounds on multiples of
    the spacing and holds the current tick strictly inside; a range is
    returned whenever one spacing of room is left to both tick bounds. *)
Theorem tick_range_aligned_around_current
    (halfWidthTicks : Q -> Z) (currentTick : Z) (widthPercent : Q)
    (tickSpacing : Z) :
  0 < tickSpacing ->
  0 <= halfWidthTicks widthPercent ->
  (forall r,
      BotTickMath.calculateTickRange halfWidthTicks currentTick widthPercent
        tickSpacing = Ok r ->
      Z.rem (TickRange.tickLower r) tickSpacing = 0 /\
      Z.rem (TickRange.tickUpper r) tickSpacing = 0 /\
      TickRange.tickLower r < currentTick < TickRange.tickUpper r) /\
  (BotTickMath.MIN_TICK + tickSpacing
     <= currentTick - halfWidthTicks widthPercent ->
   currentTick + halfWidthTicks widthPercent
     <= BotTickMath.MAX_TICK - tickSpacing ->
   exists r,
     BotTickMath.calculateTickRange halfWidthTicks currentTick widthPercent
       tickSpacing = Ok r).
Proof.
  intros Hs Hh. split.
  - intros r. apply calculateTickRange_ok; assumption.
  - apply calculateTickRange_total; assumption.
Qed.

(** A 5% range around tick 120 with spacing 60, and a zero width there,
    where both rounded bounds fall on the current tick and move outward. *)
Lemma tick_range_examples :
  (BotTickMath.calculateTickRange tickNativeHalfWidth 120 5 60
   = Ok {| TickRange.tickLower := -180; TickRange.tickUpper := 420 |} /\
   Z.rem (-180) 60 = 0 /\ Z.rem 420 60 = 0 /\ -180 < 120 < 420) /\
  (BotTickMath.calculateTickRange tickNativeHalfWidth 120 0 60
   = Ok {| TickRange.tickLower := 60; TickRange.tickUpper := 180 |} /\
   Z.rem 60 60 = 0 /\ Z.rem 180 60 = 0 /\ 60 < 120 < 180).
Proof.
  split.
  - split; [vm_compute; reflexivity|].
    apply (proj1 (tick_range_aligned_around_current tickNativeHalfWidth
                    120 5 60 ltac:(lia) ltac:(vm_compute; discriminate))
             {| TickRange.tickLower := -180; TickRange.tickUpper := 420 |}).
    vm_compute. reflexivity.
  - split; [vm_compute; reflexivity|].
    apply (proj1 (tick_range_aligned_around_current tickNativeHalfWidth
                    120 0 60 ltac:(lia) ltac:(vm_compute; discriminate))
             {| TickRange.tickLower := 60; TickRange.tickUpper := 180 |}).
    vm_compute. reflexivity.
Defined.

(** ** Tick bounds and the tick 0 identity *)

(** C4. [tickIndexToSqrtPriceX64] throws the out-of-bounds error for every
    tick outside [[-443636, 443636]], 443637 and -443637 included, returns
    a value for every tick inside, and never answers an outside tick with
    the value of the nearest bound. *)
Theorem tick_out_of_bounds_rejected (tick : Z) :
  (tick < -443636 \/ 443636 < tick ->
   TickMath.tickIndexToSqrtPriceX64 tick = Throw (OutOfBoundsError tick)) /\
  (-443636 <= tick <= 443636 ->
   exists v, TickMath.tickIndexToSqrtPriceX64 tick = Ok v) /\
  (tick < -443636 ->
   TickMath.tickIndexToSqrtPriceX64 tick
   <> TickMath.tickIndexToSqrtPriceX64 TickMath.MIN_TICK) /\
  (443636 < tick ->
   TickMath.tickIndexToSqrtPriceX64 tick
   <> TickMath.tickIndexToSqrtPriceX64 TickMath.MAX_TICK).
Proof.
  assert (Hout : tick < -443636 \/ 443636 < tick ->
                 TickMath.tickIndexToSqrtPriceX64 tick
                 = Throw (OutOfBoundsError tick)).
  { intro H. unfold TickMath.tickIndexToSqrtPriceX64,
      TickMath.MIN_TICK, TickMath.MAX_TICK.
    destruct (Z.ltb_spec tick (-443636)); [reflexivity|].
    destruct (Z.gtb_spec tick 443636); [reflexivity | lia]. }
  split; [exact Hout|]. split; [|split].
  - intro H. unfold TickMath.tickIndexToSqrtPriceX64,
      TickMath.MIN_TICK, TickMath.MAX_TICK.
    destruct (Z.ltb_spec tick (-443636)); [lia|].
    destruct (Z.gtb_spec tick 443636); [lia|]. cbn [orb]. eauto.
  - intro H. rewrite Hout by lia.
    unfold TickMath.tickIndexToSqrtPriceX64. cbn [orb Z.ltb Z.gtb]. discriminate.
  - intro H. rewrite Hout by lia.
    unfold TickMath.tickIndexToSqrtPriceX64. cbn [orb Z.ltb Z.gtb]. discriminate.
Qed.

(** The two ticks next to the bounds are rejected, the bounds accepted. *)
Lemma tick_out_of_bounds_examples :
  TickMath.tickIndexToSqrtPriceX64 443637 = Throw (OutOfBoundsError 443637) /\
  TickMath.tickIndexToSqrtPriceX64 (-443637)
  = Throw (OutOfBoundsError (-443637)) /\
  (exists v, TickMath.tickIndexToSqrtPriceX64 443636 = Ok v) /\
  (exists v, TickMath.tickIndexToSqrtPriceX64 (-443636) = Ok v).
Proof.
  split; [|split; [|split]].
  - apply (proj1 (tick_out_of_bounds_rejected 443637)). lia.
  - apply (proj1 (tick_out_of_bounds_rejected (-443637))). lia.
  - apply (proj1 (proj2 (tick_out_of_bounds_rejected 443636))). lia.
  - apply (proj1 (proj2 (tick_out_of_bounds_rejected (-443636)))). lia.
Defined.

(** C5. Tick 0 converts to exactly [2^64]. *)
Theorem tick_zero_identity :
  TickMath.tickIndexToSqrtPriceX64 0 = Ok 18446744073709551616 /\
  18446744073709551616 = 2 ^ 64.
Proof. split; vm_compute; reflexivity. Qed.

(** ** Integer facts behind the decimal operations *)

Lemma pow10_pos (k : Z) : 0 <= k -> 0 < 10 ^ k.
Proof. intro H. apply Z.pow_pos_nonneg; lia. Qed.

Lemma ndigits_fuel_spec (fuel : nat) :
  forall c, 0 < c -> c < 2 ^ (Z.of_nat fuel + 1) ->
  1 <= Decimal.ndigits_fuel fuel c /\
  10 ^ (Decimal.ndigits_fuel fuel c - 1) <= c
    < 10 ^ Decimal.ndigits_fuel fuel c.
Proof.
  induction fuel as [|fuel IH]; intros c Hpos Hlt.
  - change (2 ^ (Z.of_nat 0 + 1)) with 2 in Hlt. simpl. lia.
  - cbn [Decimal.ndigits_fuel].
    destruct (Z.ltb_spec c 10) as [Hs|Hs]; [simpl; lia|].
    assert (Hq : 0 < c / 10) by (apply Z.div_str_pos; lia).
    assert (Hq2 : c / 10 < 2 ^ (Z.of_nat fuel + 1)).
    { apply Z.div_lt_upper_bound; [lia|].
      rewrite Nat2Z.inj_succ in Hlt.
      replace (Z.succ (Z.of_nat fuel) + 1) with (Z.succ (Z.of_nat fuel + 1))
        in Hlt by lia.
      rewrite Z.pow_succ_r in Hlt by lia. lia. }
    destruct (IH _ Hq Hq2) as (H1 & H2 & H3).
    set (d := Decimal.ndigits_fuel fuel (c / 10)) in *.
    replace (1 + d - 1) with (Z.succ (d - 1)) by lia.
    replace (1 + d) with (Z.succ d) by lia.
    rewrite !Z.pow_succ_r by lia.
    pose proof (Z.div_mod c 10 ltac:(lia)).
    pose proof (Z.mod_pos_bound c 10 ltac:(lia)). lia.
Qed.

Lemma ndigits_spec (c : Z) :
  0 < c ->
  1 <= Decimal.ndigits c /\
  10 ^ (Decimal.ndigits c - 1) <= c < 10 ^ Decimal.ndigits c.
Proof.
  intro H. unfold Decimal.ndigits. apply ndigits_fuel_spec; [exact H|].
  rewrite Z2Nat.id by apply Z.log2_nonneg.
  destruct (Z.log2_spec c H) as [_ Hlt].
  replace (Z.log2 c + 1) with (Z.succ (Z.log2 c)) by lia. exact Hlt.
Qed.

Lemma dropDigits_bounds (c k : Z) :
  0 <= c -> 0 <= k ->
  c / 10 ^ k <= Decimal.dropDigits c k /\
  2 * (Decimal.dropDigits c k * 10 ^ k) <= 2 * c + 10 ^ k /\
  2 * c <= 2 * (Decimal.dropDigits c k * 10 ^ k) + 10 ^ k.
Proof.
  intros Hc Hk. unfold Decimal.dropDigits.
  pose proof (pow10_pos k Hk) as HT.
  pose proof (Z.div_mod c (10 ^ k) ltac:(lia)) as Hdm.
  pose proof (Z.mod_pos_bound c (10 ^ k) HT) as Hm.
  destruct (Z.leb_spec (10 ^ k) (2 * (c mod 10 ^ k))); nia.
Qed.

Lemma dropDigits_approx (c k m : Z) :
  0 <= k -> 0 < m -> m * 10 ^ k <= c ->
  m <= Decimal.dropDigits c k /\
  approxZ m (Decimal.dropDigits c k * 10 ^ k) c.
Proof.
  intros Hk Hm Hc.
  pose proof (pow10_pos k Hk) as HT.
  destruct (dropDigits_bounds c k ltac:(nia) Hk) as (H1 & H2 & H3).
  assert (Hq : m <= c / 10 ^ k) by (apply Z.div_le_lower_bound; lia).
  split; [lia|]. unfold approxZ.
  set (q := Decimal.dropDigits c k) in *. set (T := 10 ^ k) in *.
  split; nia.
Qed.

Lemma floorDiv_approx (c T m : Z) :
  0 < T -> 0 < m -> m * T <= c ->
  m <= c / T /\ approxZ m (c / T * T) c.
Proof.
  intros HT Hm Hc.
  assert (Hq : m <= c / T) by (apply Z.div_le_lower_bound; lia).
  pose proof (Z.div_mod c T ltac:(lia)) as Hdm.
  pose proof (Z.mod_pos_bound c T HT) as Hmod.
  split; [exact Hq|]. unfold approxZ. split; nia.
Qed.

Lemma sqrt_approx (N m : Z) :
  0 < m -> (3 * m) * (3 * m) <= N ->
  3 * m <= Z.sqrt N /\ approxZ m (Z.sqrt N * Z.sqrt N) N.
Proof.
  intros Hm HN.
  assert (Hr : 3 * m <= Z.sqrt N) by (apply Z.sqrt_le_square; lia).
  pose proof (Z.sqrt_spec N ltac:(nia)) as Hs. cbv zeta in Hs.
  split; [exact Hr|]. unfold approxZ.
  set (r := Z.sqrt N) in *. split; nia.
Qed.

Lemma succ_approx (c m : Z) : 0 < m -> m <= c -> approxZ m (c + 1) c.
Proof. intros Hm Hc. unfold approxZ. split; nia. Qed.

Local Open Scope R_scope.

(** ** Values within a factor of each other *)

Lemma within_rho (rho a b : R) : within rho a b -> 1 <= rho.
Proof.
  intros (Ha & Hb & H1 & H2).
  destruct (Rle_or_lt 1 rho) as [H|H]; [exact H|exfalso].
  assert (0 < rho).
  { destruct (Rle_or_lt rho 0) as [N|N]; [|exact N]. nra. }
  nra.
Qed.

Lemma within_refl (a : R) : 0 < a -> within 1 a a.
Proof. intro H. unfold within. repeat split; lra. Qed.

Lemma within_weaken (rho rho' a b : R) :
  within rho a b -> rho <= rho' -> within rho' a b.
Proof.
  intros (Ha & Hb & H1 & H2) H. unfold within. repeat split; try assumption.
  - apply Rle_trans with (rho * b); [assumption|].
    apply Rmult_le_compat_r; lra.
  - apply Rle_trans with (rho * a); [assumption|].
    apply Rmult_le_compat_r; lra.
Qed.

Lemma within_trans (r1 r2 a b c : R) :
  within r1 a b -> within r2 b c -> within (r1 * r2) a c.
Proof.
  intros W1 W2.
  pose proof (within_rho _ _ _ W1). pose proof (within_rho _ _ _ W2).
  destruct W1 as (Ha & Hb & H1 & H2). destruct W2 as (_ & Hc & H3 & H4).
  unfold within. repeat split; try assumption.
  - apply Rle_trans with (r1 * b); [assumption|].
    rewrite Rmult_assoc. apply Rmult_le_compat_l; lra.
  - apply Rle_trans with (r2 * b); [assumption|].
    rewrite (Rmult_comm r1 r2), Rmult_assoc. apply Rmult_le_compat_l; lra.
Qed.

Lemma within_mult (r1 r2 a b c d : R) :
  within r1 a b -> within r2 c d -> within (r1 * r2) (a * c) (b * d).
Proof.
  intros W1 W2.
  pose proof (within_rho _ _ _ W1). pose proof (within_rho _ _ _ W2).
  destruct W1 as (Ha & Hb & H1 & H2). destruct W2 as (Hc & Hd & H3 & H4).
  unfold within. repeat split.
  - apply Rmult_lt_0_compat; assumption.
  - apply Rmult_lt_0_compat; assumption.
  - replace (r1 * r2 * (b * d)) with ((r1 * b) * (r2 * d)) by ring.
    apply Rmult_le_compat; lra.
  - replace (r1 * r2 * (a * c)) with ((r1 * a) * (r2 * c)) by ring.
    apply Rmult_le_compat; lra.
Qed.

Lemma within_scale (rho a b k : R) :
  within rho a b -> 0 < k -> within rho (a * k) (b * k).
Proof.
  intros W Hk. replace rho with (rho * 1) by ring.
  apply within_mult; [exact W | apply within_refl; exact Hk].
Qed.

Lemma within_inv (rho a b : R) : within rho a b -> within rho (/ a) (/ b).
Proof.
  intros (Ha & Hb & H1 & H2). unfold within.
  pose proof (Rinv_0_lt_compat _ Ha). pose proof (Rinv_0_lt_compat _ Hb).
  repeat split; try assumption.
  - apply Rmult_le_reg_r with (a * b); [apply Rmult_lt_0_compat; assumption|].
    replace (/ a * (a * b)) with b by (field; lra).
    replace (rho * / b * (a * b)) with (rho * a) by (field; lra).
    assumption.
  - apply Rmult_le_reg_r with (a * b); [apply Rmult_lt_0_compat; assumption|].
    replace (/ b * (a * b)) with a by (field; lra).
    replace (rho * / a * (a * b)) with (rho * b) by (field; lra).
    assumption.
Qed.

Lemma within_div_r (rho a x y : R) :
  within rho (a * y) x -> 0 < y -> within rho a (x / y).
Proof.
  intros W Hy.
  replace a with (a * y * / y) by (field; lra).
  apply within_scale; [exact W | apply Rinv_0_lt_compat; exact Hy].
Qed.

Lemma within_sqr (rho a b : R) :
  within rho a b -> within (rho * rho) (a * a) (b * b).
Proof. intro W. apply within_mult; exact W. Qed.

(** ** The value of a decimal *)

Lemma pow10R_pos (e : Z) : 0 < powerRZ 10 e.
Proof. apply powerRZ_lt. lra. Qed.

Lemma IZR_pow10 (k : Z) : (0 <= k)%Z -> IZR (10 ^ k) = powerRZ 10 k.
Proof.
  intro H. destruct k as [|p|p]; [reflexivity | | lia].
  change (10 ^ Z.pos p)%Z with (Z.pow_pos 10 p).
  apply Zpower_pos_powerRZ.
Qed.

Lemma val_shift (c e k : Z) :
  (0 <= k)%Z ->
  IZR c * powerRZ 10 (e + k) = IZR (c * 10 ^ k) * powerRZ 10 e.
Proof.
  intro H. rewrite mult_IZR, IZR_pow10 by exact H.
  rewrite powerRZ_add by lra. ring.
Qed.

Lemma val_pos (x : Decimal.t) : (0 < Decimal.coef x)%Z -> 0 < val x.
Proof.
  intro H. unfold val. apply Rmult_lt_0_compat;
    [apply IZR_lt; exact H | apply pow10R_pos].
Qed.

Lemma val_pos_inv (x : Decimal.t) : 0 < val x -> (0 < Decimal.coef x)%Z.
Proof.
  unfold val. intro H. apply lt_IZR.
  pose proof (pow10R_pos (Decimal.expo x)).
  destruct (Rle_or_lt (IZR (Decimal.coef x)) 0) as [N|N]; [|exact N].
  exfalso. nra.
Qed.

Lemma within_Z (m a b e : Z) :
  (0 < m)%Z -> (0 < a)%Z -> (0 < b)%Z -> approxZ m a b ->
  within (1 + / IZR m) (IZR a * powerRZ 10 e) (IZR b * powerRZ 10 e).
Proof.
  intros Hm Ha Hb [H1 H2].
  apply IZR_lt in Hm, Ha, Hb.
  apply IZR_le in H1, H2.
  rewrite !mult_IZR, plus_IZR in H1, H2.
  pose proof (pow10R_pos e) as Hp.
  pose proof (Rinv_0_lt_compat _ Hm) as Hi.
  apply within_scale; [|exact Hp].
  unfold within. repeat split; try assumption.
  - apply Rmult_le_reg_r with (IZR m); [exact Hm|].
    replace ((1 + / IZR m) * IZR b * IZR m) with ((IZR m + 1) * IZR b)
      by (field; lra).
    exact H1.
  - apply Rmult_le_reg_r with (IZR m); [exact Hm|].
    replace ((1 + / IZR m) * IZR a * IZR m) with ((IZR m + 1) * IZR a)
      by (field; lra).
    exact H2.
Qed.

(** ** Accuracy of the decimal operations *)

Lemma rho20_ge_1 : 1 <= rho20.
Proof.
  unfold rho20. assert (0 < / IZR (10 ^ 19)); [|lra].
  apply Rinv_0_lt_compat. apply IZR_lt. reflexivity.
Qed.

Lemma rhoCut_ge_1 : 1 <= rhoCut.
Proof.
  unfold rhoCut. assert (0 < / IZR (10 ^ 42)); [|lra].
  apply Rinv_0_lt_compat. apply IZR_lt. reflexivity.
Qed.

Lemma within_refl_weak (rho a : R) : 1 <= rho -> 0 < a -> within rho a a.
Proof.
  intros H Ha. apply within_weaken with 1; [apply within_refl|]; assumption.
Qed.

Lemma finalise_within (x : Decimal.t) :
  (0 < Decimal.coef x)%Z ->
  within rho20 (val (Decimal.finalise x Decimal.precision)) (val x).
Proof.
  intro Hc. unfold Decimal.finalise.
  destruct (ndigits_spec _ Hc) as (Hd1 & Hd2 & Hd3).
  set (nd := Decimal.ndigits (Decimal.coef x)) in *.
  destruct (Z.leb_spec nd Decimal.precision) as [Hle|Hgt].
  - apply within_refl_weak; [apply rho20_ge_1 | apply val_pos; exact Hc].
  - unfold Decimal.precision in *.
    assert (Hk : (0 <= nd - 20)%Z) by lia.
    assert (Hm : (10 ^ 19 * 10 ^ (nd - 20) <= Decimal.coef x)%Z).
    { rewrite <- Z.pow_add_r by lia.
      replace (19 + (nd - 20))%Z with (nd - 1)%Z by lia. exact Hd2. }
    destruct (dropDigits_approx _ _ (10 ^ 19) Hk ltac:(reflexivity) Hm)
      as [Hq Ha].
    unfold val. cbn [Decimal.coef Decimal.expo].
    rewrite val_shift by exact Hk.
    apply within_Z; try assumption; try reflexivity.
    pose proof (pow10_pos _ Hk). nia.
Qed.

Lemma alignWords_val (x : Decimal.t) : val (Decimal.alignWords x) = val x.
Proof.
  unfold Decimal.alignWords, val, Decimal.LOG_BASE.
  cbn [Decimal.coef Decimal.expo].
  pose proof (Z.mod_pos_bound (Decimal.expo x) 7 ltac:(lia)) as H.
  rewrite <- val_shift by lia. f_equal. f_equal. lia.
Qed.

Lemma alignWords_pos (x : Decimal.t) :
  (0 < Decimal.coef x)%Z -> (0 < Decimal.coef (Decimal.alignWords x))%Z.
Proof.
  intro H. unfold Decimal.alignWords, Decimal.LOG_BASE.
  cbn [Decimal.coef].
  pose proof (Z.mod_pos_bound (Decimal.expo x) 7 ltac:(lia)).
  pose proof (pow10_pos (Decimal.expo x mod 7) ltac:(lia)). nia.
Qed.

Lemma stripWords_fuel_val (fuel : nat) :
  forall x, val (Decimal.stripWords_fuel fuel x) = val x.
Proof.
  induction fuel as [|fuel IH]; intro x; [reflexivity|].
  cbn [Decimal.stripWords_fuel].
  destruct (Z.eqb_spec (Decimal.coef x) 0) as [E0|N0]; [reflexivity|].
  destruct (Z.eqb_spec (Decimal.coef x mod 10 ^ Decimal.LOG_BASE) 0)
    as [Em|Nm]; [|reflexivity].
  cbn [orb negb]. rewrite IH. unfold val, Decimal.LOG_BASE in *.
  cbn [Decimal.coef Decimal.expo].
  rewrite val_shift by lia. f_equal. f_equal.
  pose proof (Z.div_mod (Decimal.coef x) (10 ^ 7) ltac:(lia)). lia.
Qed.

Lemma stripWords_fuel_pos (fuel : nat) :
  forall x,
    (0 < Decimal.coef x)%Z ->
    (Decimal.coef x < 2 ^ (Z.of_nat fuel + 1))%Z ->
    (0 < Decimal.coef (Decimal.stripWords_fuel fuel x))%Z /\
    (Decimal.coef (Decimal.stripWords_fuel fuel x) mod 10 ^ 7 <> 0)%Z.
Proof.
  induction fuel as [|fuel IH]; intros x Hpos Hlt.
  - change (2 ^ (Z.of_nat 0 + 1))%Z with 2%Z in Hlt. cbn [Decimal.stripWords_fuel].
    assert (Decimal.coef x = 1)%Z as -> by lia. split; [lia|].
    vm_compute. discriminate.
  - cbn [Decimal.stripWords_fuel].
    destruct (Z.eqb_spec (Decimal.coef x) 0) as [E0|N0]; [lia|].
    change (10 ^ Decimal.LOG_BASE)%Z with (10 ^ 7)%Z.
    destruct (Z.eqb_spec (Decimal.coef x mod 10 ^ 7) 0) as [Em|Nm];
      cbn [orb negb]; [|split; assumption].
    pose proof (Z.div_mod (Decimal.coef x) (10 ^ 7) ltac:(lia)) as Hdm.
    apply IH; cbn [Decimal.coef].
    + change (10 ^ 7)%Z with 10000000%Z in *. lia.
    + rewrite Nat2Z.inj_succ in Hlt.
      replace (Z.succ (Z.of_nat fuel) + 1)%Z
        with (Z.succ (Z.of_nat fuel + 1)) in Hlt by lia.
      rewrite Z.pow_succ_r in Hlt by lia.
      change (10 ^ 7)%Z with 10000000%Z in *. lia.
Qed.

Lemma stripWords_val (x : Decimal.t) : val (Decimal.stripWords x) = val x.
Proof. apply stripWords_fuel_val. Qed.

Lemma stripWords_pos (x : Decimal.t) :
  (0 < Decimal.coef x)%Z ->
  (0 < Decimal.coef (Decimal.stripWords x))%Z /\
  (Decimal.coef (Decimal.stripWords x) mod 10 ^ 7 <> 0)%Z.
Proof.
  intro H. apply stripWords_fuel_pos; [exact H|].
  rewrite Z2Nat.id by apply Z.log2_nonneg.
  destruct (Z.log2_spec _ H) as [_ Hlt].
  replace (Z.log2 (Decimal.coef x) + 1)%Z
    with (Z.succ (Z.log2 (Decimal.coef x))) by lia.
  exact Hlt.
Qed.

Lemma timesExact_val (x y : Decimal.t) :
  val (Decimal.timesExact x y) = val x * val y.
Proof.
  unfold Decimal.timesExact. rewrite stripWords_val. unfold val.
  cbn [Decimal.coef Decimal.expo].
  rewrite mult_IZR, powerRZ_add by lra. ring.
Qed.

Lemma timesExact_pos (x y : Decimal.t) :
  (0 < Decimal.coef x)%Z -> (0 < Decimal.coef y)%Z ->
  (0 < Decimal.coef (Decimal.timesExact x y))%Z /\
  (Decimal.coef (Decimal.timesExact x y) mod 10 ^ 7 <> 0)%Z.
Proof.
  intros Hx Hy. apply stripWords_pos. cbn [Decimal.coef]. nia.
Qed.

Lemma times_within (x y : Decimal.t) :
  (0 < Decimal.coef x)%Z -> (0 < Decimal.coef y)%Z ->
  within rho20 (val (Decimal.times x y)) (val x * val y).
Proof.
  intros Hx Hy. unfold Decimal.times.
  rewrite <- (alignWords_val x), <- (alignWords_val y), <- timesExact_val.
  apply finalise_within.
  apply timesExact_pos; apply alignWords_pos; assumption.
Qed.

Lemma truncate_within (x : Decimal.t) :
  (0 < Decimal.coef x)%Z ->
  within rhoCut (val (fst (Decimal.truncate x Decimal.intPowWords))) (val x) /\
  (snd (Decimal.truncate x Decimal.intPowWords) = true ->
   (10 ^ 42 <= Decimal.coef (fst (Decimal.truncate x Decimal.intPowWords)))%Z) /\
  (snd (Decimal.truncate x Decimal.intPowWords) = false ->
   fst (Decimal.truncate x Decimal.intPowWords) = x).
Proof.
  intro Hc. unfold Decimal.truncate.
  change Decimal.intPowWords with 7%Z.
  destruct (ndigits_spec _ Hc) as (Hd1 & Hd2 & Hd3).
  unfold Decimal.nwords, Decimal.LOG_BASE.
  set (nd := Decimal.ndigits (Decimal.coef x)) in *.
  set (n := ((nd + (7 - 1)) / 7)%Z).
  destruct (Z.ltb_spec 7 n) as [Hlt|Hge]; cbn [fst snd].
  - assert (Hn : (7 * n <= nd + 6)%Z).
    { unfold n. pose proof (Z.mul_div_le (nd + (7 - 1)) 7 ltac:(lia)). lia. }
    assert (Hk : (0 <= 7 * (n - 7))%Z) by lia.
    assert (Hm : (10 ^ 42 * 10 ^ (7 * (n - 7)) <= Decimal.coef x)%Z).
    { rewrite <- Z.pow_add_r by lia.
      apply Z.le_trans with (10 ^ (nd - 1))%Z; [|exact Hd2].
      apply Z.pow_le_mono_r; lia. }
    destruct (floorDiv_approx _ _ (10 ^ 42) (pow10_pos _ Hk)
                ltac:(reflexivity) Hm) as [Hq Ha].
    split; [|split; [intros _; exact Hq | discriminate]].
    unfold val. cbn [Decimal.coef Decimal.expo].
    rewrite val_shift by exact Hk.
    apply within_Z; try assumption; try reflexivity.
    pose proof (pow10_pos _ Hk).
    assert (0 < 10 ^ 42)%Z by reflexivity. nia.
  - split; [|split; [discriminate | reflexivity]].
    apply within_refl_weak; [apply rhoCut_ge_1 | apply val_pos; exact Hc].
Qed.

Lemma rhoCut_pow_ge_1 (n : nat) : 1 <= rhoCut ^ n.
Proof. apply pow_R1_Rle. apply rhoCut_ge_1. Qed.

Lemma rhoCut_pow_mono (n m : nat) : (n <= m)%nat -> rhoCut ^ n <= rhoCut ^ m.
Proof. intro H. apply Rle_pow; [apply rhoCut_ge_1 | exact H]. Qed.

Lemma pow_double (X : R) (n : nat) : (X * X) ^ n = X ^ (2 * n).
Proof. rewrite pow_Rsqr. reflexivity. Qed.

(** A product cut to seven words. *)
Lemma cut_times_within (r x : Decimal.t) (a b : nat) (R X : R) :
  within (rhoCut ^ b) (val r) R -> within (rhoCut ^ a) (val x) X ->
  within (rhoCut ^ (b + a + 1))
    (val (fst (Decimal.truncate (Decimal.timesExact r x) Decimal.intPowWords)))
    (R * X).
Proof.
  intros Wr Wx.
  assert (Hr : (0 < Decimal.coef r)%Z) by (apply val_pos_inv, Wr).
  assert (Hx : (0 < Decimal.coef x)%Z) by (apply val_pos_inv, Wx).
  destruct (timesExact_pos r x Hr Hx) as [Hp _].
  destruct (truncate_within _ Hp) as [Wt _].
  rewrite timesExact_val in Wt.
  replace (rhoCut ^ (b + a + 1)) with (rhoCut * (rhoCut ^ b * rhoCut ^ a)).
  - apply within_trans with (val r * val x); [exact Wt|].
    apply within_mult; assumption.
  - rewrite !pow_add. simpl. ring.
Qed.

Lemma intPow_loop_within (n : positive) :
  forall (r x : Decimal.t) (tr : bool) (a b : nat) (R X : R),
    within (rhoCut ^ b) (val r) R -> within (rhoCut ^ a) (val x) X ->
    within (rhoCut ^ (b + Pos.to_nat n * (a + 2)))
      (val (Decimal.intPow_loop n r x tr)) (R * X ^ Pos.to_nat n).
Proof.
  induction n as [n IH|n IH|]; intros r x tr a b R X Wr Wx.
  - (* odd: multiply, square, go on *)
    cbn [Decimal.intPow_loop].
    pose proof (cut_times_within r x a b R X Wr Wx) as Wr'.
    pose proof (cut_times_within x x a a X X Wx Wx) as Wx'.
    destruct (Decimal.truncate (Decimal.timesExact r x) Decimal.intPowWords)
      as [r' t'] eqn:E. cbn [fst] in Wr'.
    specialize (IH r' _ (tr || t')%bool _ _ _ _ Wr' Wx').
    rewrite Pos2Nat.inj_xI.
    replace (R * X ^ S (2 * Pos.to_nat n))
      with (R * X * (X * X) ^ Pos.to_nat n)
      by (rewrite pow_double; change (X ^ S (2 * Pos.to_nat n))
            with (X * X ^ (2 * Pos.to_nat n)); ring).
    eapply within_weaken; [exact IH|]. apply rhoCut_pow_mono. lia.
  - (* even: square, go on *)
    cbn [Decimal.intPow_loop].
    pose proof (cut_times_within x x a a X X Wx Wx) as Wx'.
    specialize (IH r _ tr _ _ _ _ Wr Wx').
    rewrite Pos2Nat.inj_xO.
    replace (R * X ^ (2 * Pos.to_nat n)) with (R * (X * X) ^ Pos.to_nat n)
      by (rewrite pow_double; reflexivity).
    eapply within_weaken; [exact IH|]. apply rhoCut_pow_mono. lia.
  - (* last bit *)
    cbn [Decimal.intPow_loop].
    pose proof (cut_times_within r x a b R X Wr Wx) as Wr'.
    assert (Hr : (0 < Decimal.coef r)%Z) by (apply val_pos_inv, Wr).
    assert (Hx : (0 < Decimal.coef x)%Z) by (apply val_pos_inv, Wx).
    destruct (timesExact_pos r x Hr Hx) as [Hp Hlast].
    destruct (truncate_within _ Hp) as (_ & Hcut & Hsame).
    destruct (Decimal.truncate (Decimal.timesExact r x) Decimal.intPowWords)
      as [r' t'] eqn:E. cbn [fst snd] in *.
    change (Pos.to_nat 1) with 1%nat. rewrite pow_1.
    assert (Wplain : within (rhoCut ^ (b + 1 * (a + 2))) (val r') (R * X)).
    { eapply within_weaken; [exact Wr'|]. apply rhoCut_pow_mono. lia. }
    destruct ((tr || t') && (Decimal.coef r' mod 10 ^ Decimal.LOG_BASE =? 0)%Z)%bool
      eqn:Einc; [|exact Wplain].
    apply andb_true_iff in Einc. destruct Einc as [_ Ez].
    apply Z.eqb_eq in Ez. change (10 ^ Decimal.LOG_BASE)%Z with (10 ^ 7)%Z in Ez.
    destruct t'.
    + specialize (Hcut eq_refl).
      replace (rhoCut ^ (b + 1 * (a + 2)))
        with (rhoCut * rhoCut ^ (b + a + 1))
        by (replace (b + 1 * (a + 2))%nat with (S (b + a + 1)) by lia;
            reflexivity).
      apply within_trans with (val r'); [|exact Wr'].
      unfold val. cbn [Decimal.coef Decimal.expo].
      apply within_Z; try reflexivity; try lia.
      apply succ_approx; [reflexivity | exact Hcut].
    + rewrite (Hsame eq_refl) in Ez. contradiction.
Qed.

Lemma val_one : val Decimal.one = 1.
Proof. unfold val. simpl. lra. Qed.

Lemma intPow_within (x : Decimal.t) (n : positive) :
  (0 < Decimal.coef x)%Z ->
  within (rhoCut ^ (2 * Pos.to_nat n))
    (val (Decimal.intPow x n)) (val x ^ Pos.to_nat n).
Proof.
  intro Hx. unfold Decimal.intPow.
  replace (val x ^ Pos.to_nat n) with (1 * val x ^ Pos.to_nat n) by ring.
  replace (2 * Pos.to_nat n)%nat with (0 + Pos.to_nat n * (0 + 2))%nat by lia.
  apply intPow_loop_within.
  - rewrite val_one. simpl. apply within_refl. lra.
  - rewrite alignWords_val. simpl. apply within_refl. apply val_pos. exact Hx.
Qed.

Lemma div_within (x y : Decimal.t) :
  (0 < Decimal.coef x)%Z -> (0 < Decimal.coef y)%Z ->
  within (rho20 * rho20) (val (Decimal.div x y)) (val x / val y).
Proof.
  intros Hx Hy. unfold Decimal.div, Decimal.precision.
  destruct (ndigits_spec _ Hx) as (Hx1 & Hx2 & Hx3).
  destruct (ndigits_spec _ Hy) as (Hy1 & Hy2 & Hy3).
  set (ndx := Decimal.ndigits (Decimal.coef x)) in *.
  set (ndy := Decimal.ndigits (Decimal.coef y)) in *.
  set (j := Z.max 0 (20 + 1 + ndy - ndx)).
  assert (Hj : (0 <= j)%Z) by lia.
  set (N := (Decimal.coef x * 10 ^ j)%Z).
  assert (HN : (10 ^ 19 * Decimal.coef y <= N)%Z).
  { apply Z.le_trans with (10 ^ 19 * 10 ^ ndy)%Z.
    - apply Z.mul_le_mono_nonneg_l; [apply Z.pow_nonneg|]; lia.
    - rewrite <- Z.pow_add_r by lia.
      apply Z.le_trans with (10 ^ (ndx - 1) * 10 ^ j)%Z.
      + rewrite <- Z.pow_add_r by lia. apply Z.pow_le_mono_r; lia.
      + apply Z.mul_le_mono_nonneg_r; [apply Z.pow_nonneg; lia | exact Hx2]. }
  destruct (floorDiv_approx N _ (10 ^ 19) Hy ltac:(reflexivity) HN)
    as [Hq Ha].
  set (z := {| Decimal.coef := N / Decimal.coef y;
               Decimal.expo := Decimal.expo x - Decimal.expo y - j |}).
  assert (Hz : (0 < Decimal.coef z)%Z).
  { cbn [Decimal.coef z]. assert (0 < 10 ^ 19)%Z by reflexivity. lia. }
  apply within_trans with (val z); [apply finalise_within; exact Hz|].
  apply within_div_r; [|apply val_pos; exact Hy].
  replace (val z * val y)
    with (IZR (N / Decimal.coef y * Decimal.coef y)
          * powerRZ 10 (Decimal.expo x - j)).
  - replace (val x) with (IZR N * powerRZ 10 (Decimal.expo x - j)).
    + apply within_Z; try assumption; try reflexivity.
      * assert (0 < 10 ^ 19)%Z by reflexivity. nia.
      * unfold N. pose proof (pow10_pos j Hj). nia.
    + unfold N, val. rewrite <- val_shift by exact Hj.
      f_equal. f_equal. lia.
  - unfold val, z. cbn [Decimal.coef Decimal.expo].
    rewrite mult_IZR.
    replace (Decimal.expo x - j)%Z
      with ((Decimal.expo x - Decimal.expo y - j) + Decimal.expo y)%Z by lia.
    rewrite powerRZ_add by lra. ring.
Qed.

Lemma even_half_double (n : Z) : Z.even n = true -> (n / 2 + n / 2 = n)%Z.
Proof.
  intro H. apply Z.even_spec in H. destruct H as [m ->].
  rewrite Z.mul_comm, Z.div_mul by lia. lia.
Qed.

Lemma sqrt_within (x : Decimal.t) :
  (0 < Decimal.coef x)%Z ->
  within (rho20 * rho20 * rho20)
    (val (Decimal.sqrt x) * val (Decimal.sqrt x)) (val x) /\
  0 < val (Decimal.sqrt x).
Proof.
  intros Hx. unfold Decimal.sqrt, Decimal.precision.
  destruct (ndigits_spec _ Hx) as (Hx1 & Hx2 & Hx3).
  set (nd := Decimal.ndigits (Decimal.coef x)) in *.
  set (j0 := Z.max 0 (2 * (20 + 1) - nd)).
  set (j := if Z.even (Decimal.expo x - j0) then j0 else (j0 + 1)%Z).
  assert (Hj : (j0 <= j)%Z) by (unfold j; destruct (Z.even _); lia).
  assert (Heven : Z.even (Decimal.expo x - j) = true).
  { unfold j. destruct (Z.even (Decimal.expo x - j0)) eqn:E; [exact E|].
    replace (Decimal.expo x - (j0 + 1))%Z
      with (Decimal.expo x - j0 - 1)%Z by lia.
    rewrite Z.even_sub, E. reflexivity. }
  set (N := (Decimal.coef x * 10 ^ j)%Z).
  assert (HN : (3 * 10 ^ 19 * (3 * 10 ^ 19) <= N)%Z).
  { apply Z.le_trans with (10 ^ 41)%Z; [vm_compute; discriminate|].
    apply Z.le_trans with (10 ^ (nd - 1) * 10 ^ j)%Z.
    - rewrite <- Z.pow_add_r by lia. apply Z.pow_le_mono_r; lia.
    - apply Z.mul_le_mono_nonneg_r; [apply Z.pow_nonneg; lia | exact Hx2]. }
  destruct (sqrt_approx N (10 ^ 19) ltac:(reflexivity) HN) as [Hr Ha].
  set (z := {| Decimal.coef := Z.sqrt N;
               Decimal.expo := (Decimal.expo x - j) / 2 |}).
  assert (Hz : (0 < Decimal.coef z)%Z).
  { cbn [Decimal.coef z]. assert (0 < 10 ^ 19)%Z by reflexivity. lia. }
  pose proof (finalise_within z Hz) as Wf.
  split; [|apply Wf].
  apply within_trans with (val z * val z).
  - apply within_sqr. exact Wf.
  - replace (val z * val z)
      with (IZR (Z.sqrt N * Z.sqrt N) * powerRZ 10 (Decimal.expo x - j)).
    + replace (val x) with (IZR N * powerRZ 10 (Decimal.expo x - j)).
      * apply within_Z; try assumption; try reflexivity.
        -- assert (0 < 10 ^ 19)%Z by reflexivity. nia.
        -- unfold N. pose proof (pow10_pos j ltac:(lia)). nia.
      * unfold N, val. rewrite <- val_shift by lia. f_equal. f_equal. lia.
    + unfold val, z. cbn [Decimal.coef Decimal.expo].
      rewrite mult_IZR.
      rewrite <- (even_half_double _ Heven) at 1.
      rewrite powerRZ_add by lra. ring.
Qed.

Lemma isOne_val (x : Decimal.t) : Decimal.isOne x = true -> val x = 1.
Proof.
  unfold Decimal.isOne. intro H. apply andb_true_iff in H.
  destruct H as [He Hc]. apply Z.leb_le in He. apply Z.eqb_eq in Hc.
  unfold val. rewrite Hc, IZR_pow10 by lia.
  rewrite <- powerRZ_add by lra.
  replace (- Decimal.expo x + Decimal.expo x)%Z with 0%Z by lia.
  reflexivity.
Qed.

Lemma rhoPow_ge (y : Z) : 1 <= rhoPow y.
Proof.
  unfold rhoPow. pose proof rho20_ge_1.
  pose proof (rhoCut_pow_ge_1 (2 * Z.abs_nat y)). nra.
Qed.

Lemma pow_within (x : Decimal.t) (y : Z) :
  (0 < Decimal.coef x)%Z ->
  within (rhoPow y) (val (Decimal.pow x y)) (powerRZ (val x) y).
Proof.
  intro Hx. pose proof (rhoPow_ge y) as Hge.
  pose proof rho20_ge_1 as H20.
  unfold Decimal.pow. destruct y as [|n|n].
  - rewrite val_one. simpl. apply within_refl_weak; [exact Hge | lra].
  - destruct (Decimal.isOne x) eqn:E1.
    + rewrite (isOne_val x E1), powerRZ_R1.
      apply within_refl_weak; [exact Hge | lra].
    + pose proof (rhoCut_pow_ge_1 (2 * Z.abs_nat (Z.pos n))) as Hc.
      destruct (Z.eqb_spec (Z.pos n) 1) as [E|E].
      * injection E as ->.
        change (powerRZ (val x) 1) with (val x ^ 1). rewrite pow_1.
        eapply within_weaken; [apply finalise_within; exact Hx|].
        unfold rhoPow. nra.
      * change (powerRZ (val x) (Z.pos n)) with (val x ^ Pos.to_nat n).
        pose proof (intPow_within x n Hx) as Wi.
        assert (Hi : (0 < Decimal.coef (Decimal.intPow x n))%Z)
          by (apply val_pos_inv, Wi).
        eapply within_weaken.
        -- eapply within_trans; [apply finalise_within; exact Hi | exact Wi].
        -- unfold rhoPow. rewrite Zabs2Nat.inj_pos.
           pose proof (rhoCut_pow_ge_1 (2 * Pos.to_nat n)) as Hc'.
           set (c := rhoCut ^ (2 * Pos.to_nat n)) in *.
           rewrite Rmult_assoc. apply Rle_trans with (1 * (rho20 * c)); [lra|].
           apply Rmult_le_compat_r; [nra | exact H20].
  - destruct (Decimal.isOne x) eqn:E1.
    + rewrite (isOne_val x E1), powerRZ_R1.
      apply within_refl_weak; [exact Hge | lra].
    + change (powerRZ (val x) (Z.neg n)) with (/ val x ^ Pos.to_nat n).
      pose proof (intPow_within x n Hx) as Wi.
      assert (Hi : (0 < Decimal.coef (Decimal.intPow x n))%Z)
        by (apply val_pos_inv, Wi).
      pose proof (div_within Decimal.one (Decimal.intPow x n)
                    ltac:(reflexivity) Hi) as Wd.
      rewrite val_one in Wd. unfold Rdiv in Wd. rewrite Rmult_1_l in Wd.
      unfold rhoPow. rewrite Zabs2Nat.inj_neg.
      eapply within_trans; [exact Wd | apply within_inv; exact Wi].
Qed.

(** Rounding to an integer a value that is at least [m]. *)
Lemma toFixed0_within (x : Decimal.t) (m : Z) :
  (0 < m)%Z -> IZR m <= val x ->
  within (1 + / IZR m) (IZR (Decimal.toFixed0 x)) (val x).
Proof.
  intros Hm Hv.
  assert (Hvpos : 0 < val x) by (apply IZR_lt in Hm; lra).
  pose proof (val_pos_inv x Hvpos) as Hc.
  assert (Hrho : 1 <= 1 + / IZR m).
  { assert (0 < / IZR m) by (apply Rinv_0_lt_compat, IZR_lt; exact Hm). lra. }
  unfold Decimal.toFixed0.
  destruct (Z.leb_spec 0 (Decimal.expo x)) as [He|He].
  - replace (IZR (Decimal.coef x * 10 ^ Decimal.expo x)) with (val x).
    + apply within_refl_weak; assumption.
    + unfold val. rewrite mult_IZR, IZR_pow10 by exact He. reflexivity.
  - set (k := (- Decimal.expo x)%Z).
    assert (Hk : (0 <= k)%Z) by lia.
    assert (Hmk : (m * 10 ^ k <= Decimal.coef x)%Z).
    { apply le_IZR. rewrite mult_IZR, IZR_pow10 by exact Hk.
      unfold val in Hv. replace (Decimal.expo x) with (- k)%Z in Hv by lia.
      rewrite powerRZ_neg' in Hv.
      pose proof (pow10R_pos k) as Hp.
      apply Rmult_le_reg_r with (/ powerRZ 10 k);
        [apply Rinv_0_lt_compat; exact Hp|].
      rewrite Rmult_assoc, Rinv_r by lra. lra. }
    destruct (dropDigits_approx _ _ m Hk Hm Hmk) as [Hq Ha].
    replace (IZR (Decimal.dropDigits (Decimal.coef x) k))
      with (IZR (Decimal.dropDigits (Decimal.coef x) k * 10 ^ k)
            * powerRZ 10 (- k)).
    + unfold val. replace (Decimal.expo x) with (- k)%Z by lia.
      apply within_Z; try assumption.
      pose proof (pow10_pos k Hk). nia.
    + rewrite <- val_shift by exact Hk.
      replace (- k + k)%Z with 0%Z by lia. simpl. ring.
Qed.

(** ** Powers of the tick base *)

Lemma tickBaseR_gt_1 : 1 < tickBaseR.
Proof. unfold tickBaseR. lra. Qed.

Lemma val_tickBase : val Decimal.tickBase = tickBaseR.
Proof. unfold val, tickBaseR. simpl. lra. Qed.

Lemma powerRZ_nonneg_ge_1 (x : R) (k : Z) :
  1 <= x -> (0 <= k)%Z -> 1 <= powerRZ x k.
Proof.
  intros Hx Hk. rewrite <- (Z2Nat.id k Hk), <- pow_powerRZ.
  apply pow_R1_Rle. exact Hx.
Qed.

Lemma powerRZ_pos_gt_1 (x : R) (k : Z) :
  1 < x -> (0 < k)%Z -> 1 < powerRZ x k.
Proof.
  intros Hx Hk. rewrite <- (Z2Nat.id k ltac:(lia)), <- pow_powerRZ.
  apply Rlt_pow_R1; [exact Hx | lia].
Qed.

Lemma powerRZ_le_mono (x : R) (a b : Z) :
  1 <= x -> (a <= b)%Z -> powerRZ x a <= powerRZ x b.
Proof.
  intros Hx Hab. replace b with (a + (b - a))%Z by lia.
  rewrite powerRZ_add by lra.
  pose proof (powerRZ_lt x a ltac:(lra)).
  pose proof (powerRZ_nonneg_ge_1 x (b - a) Hx ltac:(lia)). nra.
Qed.


Lemma ceilDiv_spec (a b : Z) : (0 < b)%Z -> (a <= ceilDiv a b * b)%Z.
Proof.
  intro H. unfold ceilDiv. pose proof (Z.mul_div_le (- a) b H). lia.
Qed.

Lemma powUp_correct (n : positive) :
  tickBaseR ^ Pos.to_nat n * IZR (10 ^ 40) <= IZR (powUp n).
Proof.
  assert (H40 : 0 < IZR (10 ^ 40)) by (apply IZR_lt; reflexivity).
  assert (Hx : 0 < tickBaseR) by (pose proof tickBaseR_gt_1; lra).
  induction n as [n IH|n IH|].
  - rewrite Pos2Nat.inj_xI. cbn [powUp]. cbv zeta.
    set (U := powUp n) in *.
    set (V := ceilDiv (U * U) (10 ^ 40)).
    pose proof (ceilDiv_spec (U * U) (10 ^ 40) ltac:(reflexivity)) as HV.
    pose proof (ceilDiv_spec (V * 10001) 10000 ltac:(reflexivity)) as HW.
    fold V in HV. set (W := ceilDiv (V * 10001) 10000) in *.
    apply IZR_le in HV, HW. rewrite !mult_IZR in HV, HW.
    pose proof (pow_lt tickBaseR (Pos.to_nat n) Hx) as Hp.
    change (tickBaseR ^ S (2 * Pos.to_nat n))
      with (tickBaseR * tickBaseR ^ (2 * Pos.to_nat n)).
    rewrite <- pow_double. rewrite Rpow_mult_distr.
    set (p := tickBaseR ^ Pos.to_nat n) in *.
    assert (Hsq : (p * IZR (10 ^ 40)) * (p * IZR (10 ^ 40))
                  <= IZR U * IZR U) by (apply Rmult_le_compat; nra).
    assert (HVb : p * p * IZR (10 ^ 40) <= IZR V).
    { apply Rmult_le_reg_r with (IZR (10 ^ 40)); [exact H40|]. nra. }
    unfold tickBaseR in *. lra.
  - rewrite Pos2Nat.inj_xO. cbn [powUp]. cbv zeta.
    set (U := powUp n) in *.
    pose proof (ceilDiv_spec (U * U) (10 ^ 40) ltac:(reflexivity)) as HV.
    set (V := ceilDiv (U * U) (10 ^ 40)) in *.
    apply IZR_le in HV. rewrite !mult_IZR in HV.
    pose proof (pow_lt tickBaseR (Pos.to_nat n) Hx) as Hp.
    rewrite <- pow_double. rewrite Rpow_mult_distr.
    set (p := tickBaseR ^ Pos.to_nat n) in *.
    assert (Hsq : (p * IZR (10 ^ 40)) * (p * IZR (10 ^ 40))
                  <= IZR U * IZR U) by (apply Rmult_le_compat; nra).
    apply Rmult_le_reg_r with (IZR (10 ^ 40)); [exact H40|]. nra.
  - change (Pos.to_nat 1) with 1%nat. rewrite pow_1. cbn [powUp].
    rewrite mult_IZR. unfold tickBaseR.
    change (10 ^ 40)%Z with (10000 * 10 ^ 36)%Z. rewrite mult_IZR.
    assert (0 < IZR (10 ^ 36)) by (apply IZR_lt; reflexivity). lra.
Qed.

Lemma powUp_correct_Z (n : positive) :
  powerRZ tickBaseR (Z.pos n) * IZR (10 ^ 40) <= IZR (powUp n).
Proof. exact (powUp_correct n). Qed.

(** [1.0001^443636 <= 2^64]: the square root prices stay above [2^32]. *)
Lemma tickBase_max_pow : powerRZ tickBaseR 443636 <= IZR (2 ^ 64).
Proof.
  pose proof (powUp_correct_Z 443636) as H.
  assert (Hc : IZR (powUp 443636) <= IZR (2 ^ 64 * 10 ^ 40))
    by (apply IZR_le; vm_compute; discriminate).
  rewrite mult_IZR in Hc.
  assert (H40 : 0 < IZR (10 ^ 40)) by (apply IZR_lt; reflexivity).
  set (P := powerRZ tickBaseR 443636) in *.
  set (U := IZR (powUp 443636)) in *.
  apply Rmult_le_reg_r with (IZR (10 ^ 40)); [exact H40 | lra].
Qed.

Lemma pow_succ_le (u : R) (k : nat) :
  0 <= u -> 2 * INR k * u <= 1 -> (1 + u) ^ k <= 1 + 2 * INR k * u.
Proof.
  intros Hu. induction k as [|k IH]; intro Hk.
  - simpl. lra.
  - rewrite S_INR in Hk |- *.
    pose proof (pos_INR k) as Hpos.
    assert (Hk' : 2 * INR k * u <= 1) by nra.
    specialize (IH Hk').
    change ((1 + u) ^ S k) with ((1 + u) * (1 + u) ^ k).
    apply Rle_trans with ((1 + u) * (1 + 2 * INR k * u)).
    + apply Rmult_le_compat_l; lra.
    + nra.
Qed.

(** ** Accuracy of [tickIndexToSqrtPriceX64] *)

Lemma two64_val : val (Decimal.pow (Decimal.ofZ 2) 64) = IZR (2 ^ 64).
Proof.
  replace (Decimal.pow (Decimal.ofZ 2) 64)
    with {| Decimal.coef := 2 ^ 64; Decimal.expo := 0 |}
    by (vm_compute; reflexivity).
  unfold val. cbn [Decimal.coef Decimal.expo]. simpl powerRZ. ring.
Qed.

Lemma two64_pos : (0 < Decimal.coef (Decimal.pow (Decimal.ofZ 2) 64))%Z.
Proof. vm_compute. reflexivity. Qed.

Lemma rhoCut_pow_bound (t : Z) :
  (-443636 <= t <= 443636)%Z -> rhoCut ^ (2 * Z.abs_nat t) <= rhoCuts.
Proof.
  intro Ht. unfold rhoCut, rhoCuts.
  set (k := (2 * Z.abs_nat t)%nat).
  assert (Hk : INR k <= 887272).
  { rewrite INR_IZR_INZ. apply IZR_le. unfold k.
    rewrite Nat2Z.inj_mul, Zabs2Nat.id_abs. simpl Z.of_nat. lia. }
  pose proof (pos_INR k) as Hk0.
  assert (H35 : 0 < IZR (10 ^ 35)) by (apply IZR_lt; reflexivity).
  assert (Hi35 : 0 < / IZR (10 ^ 35)) by (apply Rinv_0_lt_compat; assumption).
  assert (Hi35' : / IZR (10 ^ 35) <= 1).
  { rewrite <- Rinv_1. apply Rinv_le_contravar; [lra|].
    apply IZR_le. vm_compute. discriminate. }
  assert (E42 : / IZR (10 ^ 42) = / 10000000 * / IZR (10 ^ 35)).
  { change (10 ^ 42)%Z with (10000000 * 10 ^ 35)%Z.
    rewrite mult_IZR, Rinv_mult. reflexivity. }
  set (u := / IZR (10 ^ 35)) in *.
  assert (Hrel : 2 * INR k * / IZR (10 ^ 42) <= u).
  { rewrite E42. nra. }
  assert (H42 : 0 <= / IZR (10 ^ 42)) by (rewrite E42; nra).
  pose proof (pow_succ_le (/ IZR (10 ^ 42)) k H42 ltac:(lra)).
  lra.
Qed.

Lemma rhoPow_bound (t : Z) :
  (-443636 <= t <= 443636)%Z -> rhoPow t <= rho20 * rho20 * rhoCuts.
Proof.
  intro Ht. unfold rhoPow. pose proof rho20_ge_1.
  apply Rmult_le_compat_l; [nra | apply rhoCut_pow_bound; exact Ht].
Qed.

Lemma tickIndexToSqrtPriceX64_inside (tick : Z) :
  (-443636 <= tick <= 443636)%Z ->
  TickMath.tickIndexToSqrtPriceX64 tick
  = Ok (Decimal.toFixed0 (sqrtPriceX64Decimal tick)).
Proof.
  intro H. unfold TickMath.tickIndexToSqrtPriceX64,
    TickMath.MIN_TICK, TickMath.MAX_TICK.
  destruct (Z.ltb_spec tick (-443636)); [lia|].
  destruct (Z.gtb_spec tick 443636); [lia|]. reflexivity.
Qed.

Lemma tickBase_pow_lower (t : Z) :
  (-443636 <= t)%Z -> / IZR (2 ^ 64) <= powerRZ tickBaseR t.
Proof.
  intro Ht. pose proof tickBaseR_gt_1 as Hx.
  apply Rle_trans with (powerRZ tickBaseR (Z.opp 443636)).
  - rewrite powerRZ_neg'. apply Rinv_le_contravar.
    + apply powerRZ_lt. lra.
    + apply tickBase_max_pow.
  - apply powerRZ_le_mono; [lra | lia].
Qed.

(** Before the last rounding: the square of the decimal is within a few
    roundings of [1.0001^tick * 2^128]. *)
Lemma sqrtPriceX64Decimal_within (t : Z) :
  (-443636 <= t <= 443636)%Z ->
  within (rho20 * rho20 * (rho20 * rho20 * rho20 * (rho20 * rho20 * rhoCuts)))
    (val (sqrtPriceX64Decimal t) * val (sqrtPriceX64Decimal t))
    (powerRZ tickBaseR t * IZR (2 ^ 128)) /\
  0 < val (sqrtPriceX64Decimal t).
Proof.
  intro Ht. unfold sqrtPriceX64Decimal.
  pose proof (pow_within Decimal.tickBase t ltac:(reflexivity)) as WP.
  rewrite val_tickBase in WP.
  set (P := Decimal.pow Decimal.tickBase t) in *.
  assert (HP : (0 < Decimal.coef P)%Z) by (apply val_pos_inv, WP).
  destruct (sqrt_within P HP) as [Ws Hspos].
  set (s := Decimal.sqrt P) in *.
  assert (Hs : (0 < Decimal.coef s)%Z) by (apply val_pos_inv; exact Hspos).
  pose proof (times_within s _ Hs two64_pos) as Wm.
  rewrite two64_val in Wm.
  set (m := Decimal.times s (Decimal.pow (Decimal.ofZ 2) 64)) in *.
  assert (H64 : 0 < IZR (2 ^ 64)) by (apply IZR_lt; reflexivity).
  assert (E128 : IZR (2 ^ 128) = IZR (2 ^ 64) * IZR (2 ^ 64)).
  { rewrite <- mult_IZR. reflexivity. }
  split; [|apply Wm].
  apply within_trans with (val s * IZR (2 ^ 64) * (val s * IZR (2 ^ 64)));
    [apply within_sqr; exact Wm|].
  replace (val s * IZR (2 ^ 64) * (val s * IZR (2 ^ 64)))
    with (val s * val s * IZR (2 ^ 128)) by (rewrite E128; ring).
  apply within_scale; [|apply IZR_lt; reflexivity].
  apply within_trans with (val P); [exact Ws|].
  eapply within_weaken; [exact WP | apply rhoPow_bound; exact Ht].
Qed.

Lemma sqrtPriceX64_within (t : Z) :
  (-443636 <= t <= 443636)%Z ->
  within rhoTick
    (IZR (Decimal.toFixed0 (sqrtPriceX64Decimal t))
     * IZR (Decimal.toFixed0 (sqrtPriceX64Decimal t)))
    (powerRZ tickBaseR t * IZR (2 ^ 128)) /\
  (0 < Decimal.toFixed0 (sqrtPriceX64Decimal t))%Z.
Proof.
  intro Ht.
  destruct (sqrtPriceX64Decimal_within t Ht) as [Wm Hmpos].
  set (m := sqrtPriceX64Decimal t) in *.
  set (rho := rho20 * rho20 * (rho20 * rho20 * rho20
                               * (rho20 * rho20 * rhoCuts))) in *.
  assert (Hrho : rho <= 2) by (unfold rho, rho20, rhoCuts; lra).
  pose proof (tickBase_pow_lower t ltac:(lia)) as Hlow.
  assert (H64 : 0 < IZR (2 ^ 64)) by (apply IZR_lt; reflexivity).
  assert (E128 : IZR (2 ^ 128) = IZR (2 ^ 64) * IZR (2 ^ 64)).
  { rewrite <- mult_IZR. reflexivity. }
  assert (E64 : IZR (2 ^ 64) = 2 * IZR (2 ^ 31) * (2 * IZR (2 ^ 31)) * 1)
    by (rewrite <- !mult_IZR; reflexivity).
  assert (H31 : 0 < IZR (2 ^ 31)) by (apply IZR_lt; reflexivity).
  (* the decimal is at least 2^31 *)
  assert (Hm : IZR (2 ^ 31) <= val m).
  { destruct Wm as (Hmm & _ & _ & Hge).
    set (X := powerRZ tickBaseR t) in *.
    assert (HX : IZR (2 ^ 64) <= X * IZR (2 ^ 128)).
    { rewrite E128. rewrite <- Rmult_assoc.
      apply Rle_trans with (/ IZR (2 ^ 64) * IZR (2 ^ 64) * IZR (2 ^ 64)).
      - rewrite Rinv_l by lra. lra.
      - apply Rmult_le_compat_r; [lra|]. apply Rmult_le_compat_r; lra. }
    set (v := val m) in *. set (A := IZR (2 ^ 31)) in *.
    set (B := IZR (2 ^ 64)) in *.
    set (C := X * IZR (2 ^ 128)) in *.
    destruct (Rle_or_lt A v) as [L|G]; [exact L|exfalso].
    assert (v * v < A * A) by nra.
    assert (C <= 2 * (v * v)) by nra.
    nra. }
  pose proof (toFixed0_within m (2 ^ 31) ltac:(reflexivity) Hm) as Wv.
  split; [|apply lt_IZR; apply Wv].
  eapply within_weaken.
  - eapply within_trans; [apply within_sqr; exact Wv | exact Wm].
  - unfold rho, rhoTick, rho20, rhoCuts. lra.
Qed.

(** Strict monotonicity of the integer results. *)
Lemma sqrtPriceX64_increasing (t1 t2 : Z) :
  (-443636 <= t1)%Z -> (t1 < t2)%Z -> (t2 <= 443636)%Z ->
  (Decimal.toFixed0 (sqrtPriceX64Decimal t1)
   < Decimal.toFixed0 (sqrtPriceX64Decimal t2))%Z.
Proof.
  intros H1 H12 H2.
  destruct (sqrtPriceX64_within t1 ltac:(lia)) as [W1 P1].
  destruct (sqrtPriceX64_within t2 ltac:(lia)) as [W2 P2].
  set (v1 := Decimal.toFixed0 (sqrtPriceX64Decimal t1)) in *.
  set (v2 := Decimal.toFixed0 (sqrtPriceX64Decimal t2)) in *.
  apply lt_IZR. apply IZR_lt in P1, P2.
  destruct W1 as (_ & HX1 & Hle1 & _). destruct W2 as (_ & _ & _ & Hge2).
  pose proof tickBaseR_gt_1 as Hx.
  assert (Hstep : powerRZ tickBaseR t1 * tickBaseR <= powerRZ tickBaseR t2).
  { replace (powerRZ tickBaseR t1 * tickBaseR)
      with (powerRZ tickBaseR (t1 + 1))
      by (rewrite powerRZ_add by lra; simpl powerRZ; ring).
    apply powerRZ_le_mono; [lra | lia]. }
  assert (H128 : 0 < IZR (2 ^ 128)) by (apply IZR_lt; reflexivity).
  pose proof (powerRZ_lt tickBaseR t1 ltac:(lra)) as Hp1.
  set (X1 := powerRZ tickBaseR t1) in *.
  set (X2 := powerRZ tickBaseR t2) in *.
  set (K := IZR (2 ^ 128)) in *.
  assert (Hrho : rhoTick * rhoTick < tickBaseR)
    by (unfold rhoTick, tickBaseR; lra).
  assert (Hr1 : 1 <= rhoTick).
  { unfold rhoTick.
    assert (0 < / IZR (10 ^ 8)) by (apply Rinv_0_lt_compat, IZR_lt; reflexivity).
    lra. }
  assert (Hsq : IZR v1 * IZR v1 < IZR v2 * IZR v2).
  { assert (A1 : rhoTick * (IZR v1 * IZR v1) <= rhoTick * rhoTick * (X1 * K)).
    { rewrite Rmult_assoc. apply Rmult_le_compat_l; lra. }
    assert (A2 : rhoTick * rhoTick * (X1 * K) < tickBaseR * (X1 * K)).
    { apply Rmult_lt_compat_r; [apply Rmult_lt_0_compat; lra | exact Hrho]. }
    assert (A3 : tickBaseR * (X1 * K) <= X2 * K).
    { replace (tickBaseR * (X1 * K)) with (X1 * tickBaseR * K) by ring.
      apply Rmult_le_compat_r; lra. }
    assert (A4 : rhoTick * (IZR v1 * IZR v1) < rhoTick * (IZR v2 * IZR v2))
      by lra.
    apply Rmult_lt_reg_l with rhoTick; lra. }
  destruct (Rlt_or_le (IZR v1) (IZR v2)) as [L|G]; [exact L|exfalso].
  assert (IZR v2 * IZR v2 <= IZR v1 * IZR v1)
    by (apply Rmult_le_compat; lra).
  lra.
Qed.

(** ** The rounded logarithm *)





Section LogSearch.

Variable x : Decimal.t.

Let P (k : Z) : bool := Decimal.sqLtTickPow x (2 * k + 1).




End LogSearch.


Lemma val_ofZ (n : Z) : val (Decimal.ofZ n) = IZR n.
Proof. unfold val. simpl. ring. Qed.



(** ** Monotonicity and the round trip *)

(** C6. [tickIndexToSqrtPriceX64] is strictly increasing on the ticks
    within the bounds: for [t1 < t2] both conversions return, and the
    first result is strictly below the second. *)
Theorem tick_to_sqrt_price_strictly_increasing (t1 t2 : Z) :
  (TickMath.MIN_TICK <= t1)%Z -> (t1 < t2)%Z -> (t2 <= TickMath.MAX_TICK)%Z ->
  exists v1 v2,
    TickMath.tickIndexToSqrtPriceX64 t1 = Ok v1 /\
    TickMath.tickIndexToSqrtPriceX64 t2 = Ok v2 /\
    (v1 < v2)%Z.
Proof.
  unfold TickMath.MIN_TICK, TickMath.MAX_TICK. intros H1 H12 H2.
  exists (Decimal.toFixed0 (sqrtPriceX64Decimal t1)),
         (Decimal.toFixed0 (sqrtPriceX64Decimal t2)).
  split; [apply tickIndexToSqrtPriceX64_inside; lia|].
  split; [apply tickIndexToSqrtPriceX64_inside; lia|].
  apply sqrtPriceX64_increasing; assumption.
Qed.

(** The sqrt prices of the two bounds, of ticks 0 and 1 and of two ticks
    a thousand apart. *)
Lemma tick_to_sqrt_price_increasing_examples :
  (exists v1 v2,
      TickMath.tickIndexToSqrtPriceX64 (-443636) = Ok v1 /\
      TickMath.tickIndexToSqrtPriceX64 443636 = Ok v2 /\ (v1 < v2)%Z) /\
  (exists v1 v2,
      TickMath.tickIndexToSqrtPriceX64 0 = Ok v1 /\
      TickMath.tickIndexToSqrtPriceX64 1 = Ok v2 /\ (v1 < v2)%Z) /\
  (exists v1 v2,
      TickMath.tickIndexToSqrtPriceX64 (-1000) = Ok v1 /\
      TickMath.tickIndexToSqrtPriceX64 1000 = Ok v2 /\ (v1 < v2)%Z).
Proof.
  split; [|split].
  - apply (tick_to_sqrt_price_strictly_increasing (-443636) 443636);
      vm_compute; discriminate || reflexivity.
  - apply (tick_to_sqrt_price_strictly_increasing 0 1);
      vm_compute; discriminate || reflexivity.
  - apply (tick_to_sqrt_price_strictly_increasing (-1000) 1000);
      vm_compute; discriminate || reflexivity.
Defined.



(** The embedding evaluated at a few ticks. *)
Example sqrt_price_values :
  TickMath.tickIndexToSqrtPriceX64 1 = Ok 18447666387855959851%Z /\
  TickMath.tickIndexToSqrtPriceX64 1000 = Ok 19392480388906836277%Z /\
  TickMath.tickIndexToSqrtPriceX64 (-443636) = Ok 4295048016%Z /\
  TickMath.tickIndexToSqrtPriceX64 443636
  = Ok 79226673515401279994000000000%Z.
Proof. repeat split; vm_compute; reflexivity. Qed.

Example tick_index_values :
  TickMath.sqrtPriceX64ToTickIndex 18446744073709551616 = Some 0%Z /\
  TickMath.sqrtPriceX64ToTickIndex 18447666387855959851 = Some 1%Z /\
  TickMath.sqrtPriceX64ToTickIndex 18453201241220755940 = Some 7%Z /\
  TickMath.sqrtPriceX64ToTickIndex 0 = None.
Proof. repeat split; vm_compute; reflexivity. Qed.

(** * Further properties *)

(** ** Accuracy and range of the sqrt prices *)

(** X1. Inside the tick bounds the sqrt price is positive, and its square
    and [1.0001^tick * 2^128] are each at most [1 + 10^-8] times the
    other. *)
Theorem sqrt_price_accuracy (tick v : Z) :
  (-443636 <= tick <= 443636)%Z ->
  TickMath.tickIndexToSqrtPriceX64 tick = Ok v ->
  (0 < v)%Z /\
  (IZR v * IZR v
   <= (1 + / IZR (10 ^ 8)) * (powerRZ tickBaseR tick * IZR (2 ^ 128)))%R /\
  (powerRZ tickBaseR tick * IZR (2 ^ 128)
   <= (1 + / IZR (10 ^ 8)) * (IZR v * IZR v))%R.
Proof.
  intros Ht Hv. rewrite (tickIndexToSqrtPriceX64_inside tick Ht) in Hv.
  injection Hv as <-.
  destruct (sqrtPriceX64_within tick Ht) as [(_ & _ & H1 & H2) Hpos].
  unfold rhoTick in H1, H2. auto.
Qed.

Lemma sqrt_price_accuracy_example :
  (0 < 19392480388906836277)%Z /\
  (IZR 19392480388906836277 * IZR 19392480388906836277
   <= (1 + / IZR (10 ^ 8)) * (powerRZ tickBaseR 1000 * IZR (2 ^ 128)))%R /\
  (powerRZ tickBaseR 1000 * IZR (2 ^ 128)
   <= (1 + / IZR (10 ^ 8))
      * (IZR 19392480388906836277 * IZR 19392480388906836277))%R.
Proof.
  apply (sqrt_price_accuracy 1000 19392480388906836277).
  - lia.
  - vm_compute. reflexivity.
Defined.

(** X2. Inside the tick bounds every sqrt price lies between the one of
    the lowest tick, 4295048016, and the one of the highest tick, and so
    fits in 128 bits. *)
Theorem sqrt_price_range (tick : Z) :
  (-443636 <= tick <= 443636)%Z ->
  exists v,
    TickMath.tickIndexToSqrtPriceX64 tick = Ok v /\
    (4295048016 <= v <= 79226673515401279994000000000)%Z /\
    (v < 2 ^ 128)%Z.
Proof.
  intro Ht. exists (Decimal.toFixed0 (sqrtPriceX64Decimal tick)).
  split; [apply tickIndexToSqrtPriceX64_inside; exact Ht|].
  assert (Hmin : Decimal.toFixed0 (sqrtPriceX64Decimal (-443636))
                 = 4295048016%Z) by (vm_compute; reflexivity).
  assert (Hmax : Decimal.toFixed0 (sqrtPriceX64Decimal 443636)
                 = 79226673515401279994000000000%Z)
    by (vm_compute; reflexivity).
  assert (Hlo : (4295048016
                 <= Decimal.toFixed0 (sqrtPriceX64Decimal tick))%Z).
  { destruct (Z.eq_dec tick (-443636)) as [->|N]; [rewrite Hmin; lia|].
    pose proof (sqrtPriceX64_increasing (-443636) tick ltac:(lia) ltac:(lia)
                  ltac:(lia)) as H.
    rewrite Hmin in H. lia. }
  assert (Hhi : (Decimal.toFixed0 (sqrtPriceX64Decimal tick)
                 <= 79226673515401279994000000000)%Z).
  { destruct (Z.eq_dec tick 443636) as [->|N]; [rewrite Hmax; lia|].
    pose proof (sqrtPriceX64_increasing tick 443636 ltac:(lia) ltac:(lia)
                  ltac:(lia)) as H.
    rewrite Hmax in H. lia. }
  split; [lia|].
  apply Z.le_lt_trans with 79226673515401279994000000000%Z; [exact Hhi|].
  reflexivity.
Qed.

Lemma sqrt_price_range_example :
  exists v,
    TickMath.tickIndexToSqrtPriceX64 0 = Ok v /\
    (4295048016 <= v <= 79226673515401279994000000000)%Z /\
    (v < 2 ^ 128)%Z.
Proof. apply (sqrt_price_range 0). lia. Defined.



(** ** The price of a sqrt price *)

(** X4. For a positive sqrt price and decimals at most 443636 apart, the
    decimal price and [(sqrtPriceX64 / 2^64)^2 * 10^(decimalsB - decimalsA)]
    are each at most [1 + 10^-18] times the other. *)
Theorem sqrt_price_to_price_accuracy (sqrtPriceX64 decimalsA decimalsB : Z) :
  (0 < sqrtPriceX64)%Z ->
  (-443636 <= decimalsB - decimalsA <= 443636)%Z ->
  within (1 + / IZR (10 ^ 18))
    (val (ClmmTickMath.sqrtPriceX64ToPrice sqrtPriceX64 decimalsA decimalsB))
    (IZR sqrtPriceX64 / IZR (2 ^ 64) * (IZR sqrtPriceX64 / IZR (2 ^ 64))
     * powerRZ 10 (decimalsB - decimalsA))%R.
Proof.
  intros HS Hd. unfold ClmmTickMath.sqrtPriceX64ToPrice.
  pose proof (div_within (Decimal.ofZ sqrtPriceX64) _ HS two64_pos) as Wd.
  rewrite val_ofZ, two64_val in Wd.
  set (s := Decimal.div (Decimal.ofZ sqrtPriceX64)
                        (Decimal.pow (Decimal.ofZ 2) 64)) in *.
  assert (Hs : (0 < Decimal.coef s)%Z) by (apply val_pos_inv, Wd).
  pose proof (pow_within s 2 Hs) as Wp.
  change (powerRZ (val s) 2) with (val s * (val s * 1))%R in Wp.
  rewrite Rmult_1_r in Wp.
  set (p := Decimal.pow s 2) in *.
  assert (Hp : (0 < Decimal.coef p)%Z) by (apply val_pos_inv, Wp).
  pose proof (pow_within (Decimal.ofZ 10) (decimalsB - decimalsA)
                ltac:(reflexivity)) as Wa.
  rewrite val_ofZ in Wa.
  set (a := Decimal.pow (Decimal.ofZ 10) (decimalsB - decimalsA)) in *.
  assert (Ha : (0 < Decimal.coef a)%Z) by (apply val_pos_inv, Wa).
  pose proof (times_within p a Hp Ha) as Wt.
  pose proof (rhoPow_bound 2 ltac:(lia)) as B2.
  pose proof (rhoPow_bound _ Hd) as Bd.
  set (X := powerRZ 10 (decimalsB - decimalsA)) in *.
  set (q := (IZR sqrtPriceX64 / IZR (2 ^ 64))%R) in *.
  eapply within_weaken.
  - eapply within_trans; [exact Wt|].
    apply within_mult.
    + eapply within_trans; [exact Wp | apply within_sqr; exact Wd].
    + exact Wa.
  - pose proof (rhoPow_ge 2) as G2.
    pose proof (rhoPow_ge (decimalsB - decimalsA)) as Gd.
    set (r2 := rhoPow 2) in *. set (rd := rhoPow (decimalsB - decimalsA)) in *.
    pose proof rho20_ge_1 as G20.
    set (b := (rho20 * rho20 * rhoCuts)%R) in *.
    assert (Hprod : (r2 * rd <= b * b)%R) by (apply Rmult_le_compat; lra).
    assert (Hk : (0 <= rho20 * (rho20 * rho20 * (rho20 * rho20)))%R).
    { repeat apply Rmult_le_pos; lra. }
    replace (rho20 * (r2 * (rho20 * rho20 * (rho20 * rho20)) * rd))%R
      with (rho20 * (rho20 * rho20 * (rho20 * rho20)) * (r2 * rd))%R by ring.
    apply Rle_trans
      with (rho20 * (rho20 * rho20 * (rho20 * rho20)) * (b * b))%R.
    + apply Rmult_le_compat_l; assumption.
    + unfold b, rho20, rhoCuts. lra.
Qed.

Lemma sqrt_price_to_price_example :
  within (1 + / IZR (10 ^ 18))
    (val (ClmmTickMath.sqrtPriceX64ToPrice 19392480388906836277 9 6))
    (IZR 19392480388906836277 / IZR (2 ^ 64)
     * (IZR 19392480388906836277 / IZR (2 ^ 64))
     * powerRZ 10 (6 - 9))%R.
Proof.
  apply (sqrt_price_to_price_accuracy 19392480388906836277 9 6); lia.
Defined.

(** ** The closest active range *)

Lemma Math_round_bounds (x : Q) :
  (inject_Z (Math_round x) <= x + (1 # 2))%Q /\
  (x + (1 # 2) < inject_Z (Math_round x + 1))%Q.
Proof.
  unfold Math_round. split; [apply Qfloor_le | apply Qlt_floor].
Qed.

(** The rounded quotient of [closestActiveRange] on integers. *)
Lemma candidate_bounds (t m s : Z) :
  (0 < s)%Z ->
  let k := Math_round ((inject_Z t - inject_Z (m * s) / 2) / inject_Z s) in
  (2 * (k * s) <= 2 * t - m * s + s < 2 * (k * s) + 2 * s)%Z.
Proof.
  intros Hs k.
  destruct (Math_round_bounds
              ((inject_Z t - inject_Z (m * s) / 2) / inject_Z s))
    as [Hle Hlt].
  fold k in Hle, Hlt.
  assert (HS : (0 < inject_Z s)%Q).
  { change 0%Q with (inject_Z 0). rewrite <- Zlt_Qlt. exact Hs. }
  set (x := ((inject_Z t - inject_Z (m * s) / 2) / inject_Z s)%Q) in *.
  assert (Hx : (x * inject_Z s
                == inject_Z t - inject_Z (m * s) * (1 # 2))%Q).
  { unfold x. field. intro E. rewrite E in HS. exact (Qlt_irrefl _ HS). }
  clearbody x. subst k. set (k := Math_round x) in *. clearbody k.
  rewrite inject_Z_plus in Hlt. rewrite inject_Z_mult in Hx.
  change (inject_Z 1) with 1%Q in Hlt.
  assert (A : (inject_Z (2 * (k * s)) <= inject_Z (2 * t - m * s + s))%Q).
  { unfold Z.sub.
    repeat rewrite ?inject_Z_plus, ?inject_Z_mult, ?inject_Z_opp.
    change (inject_Z 2) with 2%Q.
    assert (H : (inject_Z k * inject_Z s <= (x + (1 # 2)) * inject_Z s)%Q)
      by (apply Qmult_le_compat_r; [exact Hle | apply Qlt_le_weak; exact HS]).
    set (K := inject_Z k) in *. set (Sp := inject_Z s) in *.
    set (T := inject_Z t) in *. set (M := inject_Z m) in *.
    clearbody K Sp T M. Lqa.nra. }
  assert (B : (inject_Z (2 * t - m * s + s)
               < inject_Z (2 * (k * s) + 2 * s))%Q).
  { unfold Z.sub.
    repeat rewrite ?inject_Z_plus, ?inject_Z_mult, ?inject_Z_opp.
    change (inject_Z 2) with 2%Q.
    assert (H : ((x + (1 # 2)) * inject_Z s
                 < (inject_Z k + 1) * inject_Z s)%Q)
      by (apply Qmult_lt_compat_r; assumption).
    set (K := inject_Z k) in *. set (Sp := inject_Z s) in *.
    set (T := inject_Z t) in *. set (M := inject_Z m) in *.
    clearbody K Sp T M. Lqa.nra. }
  rewrite <- Zle_Qle in A. rewrite <- Zlt_Qlt in B. lia.
Qed.

Lemma closestActiveRange_inside (BN : string -> Z) (pool : Entities.Pool.t)
  (multiplier : Z) :
  let s := Entities.Pool.tickSpacing pool in
  let t := Entities.Pool.tickCurrent pool in
  let k := Math_round ((inject_Z t - inject_Z (multiplier * s) / 2)
                       / inject_Z s) in
  let v := Decimal.toFixed0 (sqrtPriceX64Decimal t) in
  (-443636 <= t <= 443636)%Z ->
  PoolHelper.closestActiveRange BN pool multiplier
  = Ok (let lowerTick :=
          if (BN (Entities.Pool.sqrtPriceX64 pool) <? v)%Z
             && (k * s =? t)%Z
          then (k * s - s)%Z else (k * s)%Z in
        (lowerTick, (lowerTick + multiplier * s)%Z)).
Proof.
  intros s t k v Ht. unfold PoolHelper.closestActiveRange,
    ClmmTickMath.tickIndexToSqrtPriceX64.
  fold s t. rewrite (tickIndexToSqrtPriceX64_inside t Ht). reflexivity.
Qed.

Lemma closestActiveRange_outside (BN : string -> Z) (pool : Entities.Pool.t)
  (multiplier : Z) :
  (Entities.Pool.tickCurrent pool < -443636
   \/ 443636 < Entities.Pool.tickCurrent pool)%Z ->
  PoolHelper.closestActiveRange BN pool multiplier
  = Throw (OutOfBoundsError (Entities.Pool.tickCurrent pool)).
Proof.
  intro H. unfold PoolHelper.closestActiveRange,
    ClmmTickMath.tickIndexToSqrtPriceX64, TickMath.tickIndexToSqrtPriceX64,
    TickMath.MIN_TICK, TickMath.MAX_TICK.
  destruct (Z.ltb_spec (Entities.Pool.tickCurrent pool) (-443636));
    [reflexivity|].
  destruct (Z.gtb_spec (Entities.Pool.tickCurrent pool) 443636);
    [reflexivity | lia].
Qed.

(** The lower tick that [closestActiveRange] settles on. *)
Lemma closestActiveRange_lowerTick (BN : string -> Z)
  (pool : Entities.Pool.t) (multiplier : Z) :
  (0 < Entities.Pool.tickSpacing pool)%Z ->
  (1 <= multiplier)%Z ->
  (-443636 <= Entities.Pool.tickCurrent pool <= 443636)%Z ->
  exists lowerTick : Z,
    PoolHelper.closestActiveRange BN pool multiplier
    = Ok (lowerTick,
          (lowerTick + multiplier * Entities.Pool.tickSpacing pool)%Z) /\
    (lowerTick mod Entities.Pool.tickSpacing pool = 0)%Z /\
    (lowerTick <= Entities.Pool.tickCurrent pool
     <= lowerTick + multiplier * Entities.Pool.tickSpacing pool)%Z.
Proof.
  intros Hs Hm Ht.
  rewrite (closestActiveRange_inside BN pool multiplier Ht).
  pose proof (candidate_bounds (Entities.Pool.tickCurrent pool) multiplier
                (Entities.Pool.tickSpacing pool) Hs) as Hk.
  cbv zeta in Hk |- *.
  set (s := Entities.Pool.tickSpacing pool) in *.
  set (t := Entities.Pool.tickCurrent pool) in *.
  set (k := Math_round _) in *. clearbody k.
  assert (Hms : (s <= multiplier * s)%Z) by nia.
  assert (Hmod : forall a : Z, (a * s mod s = 0)%Z)
    by (intro a; apply Z.mod_mul; lia).
  destruct ((BN (Entities.Pool.sqrtPriceX64 pool) <? _)%Z
            && (k * s =? t)%Z) eqn:E.
  - apply andb_prop in E. destruct E as [_ E]. apply Z.eqb_eq in E.
    exists (k * s - s)%Z. split; [reflexivity|].
    split; [replace (k * s - s)%Z with ((k - 1) * s)%Z by ring; apply Hmod|].
    lia.
  - exists (k * s)%Z. split; [reflexivity|].
    split; [apply Hmod | nia].
Qed.

(** X5. For a positive spacing, a multiplier of at least 1 and a current
    tick inside the bounds, [closestActiveRange] returns a range that is
    exactly [multiplier] spacings wide, has both ends on multiples of the
    spacing and holds the current tick. *)
Theorem closest_active_range_shape (BN : string -> Z)
  (pool : Entities.Pool.t) (multiplier : Z) :
  (0 < Entities.Pool.tickSpacing pool)%Z ->
  (1 <= multiplier)%Z ->
  (-443636 <= Entities.Pool.tickCurrent pool <= 443636)%Z ->
  exists lo hi : Z,
    PoolHelper.closestActiveRange BN pool multiplier = Ok (lo, hi) /\
    (hi - lo = multiplier * Entities.Pool.tickSpacing pool)%Z /\
    (lo mod Entities.Pool.tickSpacing pool = 0)%Z /\
    (hi mod Entities.Pool.tickSpacing pool = 0)%Z /\
    (lo <= Entities.Pool.tickCurrent pool <= hi)%Z.
Proof.
  intros Hs Hm Ht.
  destruct (closestActiveRange_lowerTick BN pool multiplier Hs Hm Ht)
    as (lo & E & Hlo & Hin).
  exists lo, (lo + multiplier * Entities.Pool.tickSpacing pool)%Z.
  split; [exact E|]. split; [ring|]. split; [exact Hlo|].
  split; [|exact Hin].
  rewrite Z.mod_add by lia. exact Hlo.
Qed.

(** A pool at tick 120 with spacing 60, priced below the tick, and three
    spacings asked for. *)
Lemma closest_active_range_shape_example :
  exists lo hi : Z,
    PoolHelper.closestActiveRange digitsBN
      (examplePool "18446744073709551616" 120 60) 3 = Ok (lo, hi) /\
    (hi - lo = 3 * 60)%Z /\ (lo mod 60 = 0)%Z /\ (hi mod 60 = 0)%Z /\
    (lo <= 120 <= hi)%Z.
Proof.
  apply (closest_active_range_shape digitsBN
           (examplePool "18446744073709551616" 120 60) 3); simpl; lia.
Defined.

(** X6. With two spacings or more the answer of [closestActiveRange] does
    not depend on the sqrt price of the pool: the lower tick is never
    moved down, the current tick lies below the upper end and the middle
    of the range is within half a spacing of the current tick. *)
Theorem closest_active_range_centred (pool : Entities.Pool.t)
  (multiplier : Z) :
  (0 < Entities.Pool.tickSpacing pool)%Z ->
  (2 <= multiplier)%Z ->
  (-443636 <= Entities.Pool.tickCurrent pool <= 443636)%Z ->
  exists lo hi : Z,
    (forall BN : string -> Z,
        PoolHelper.closestActiveRange BN pool multiplier = Ok (lo, hi)) /\
    (lo <= Entities.Pool.tickCurrent pool < hi)%Z /\
    (- Entities.Pool.tickSpacing pool
     <= 2 * Entities.Pool.tickCurrent pool - (lo + hi)
     < Entities.Pool.tickSpacing pool)%Z.
Proof.
  intros Hs Hm Ht.
  pose proof (candidate_bounds (Entities.Pool.tickCurrent pool) multiplier
                (Entities.Pool.tickSpacing pool) Hs) as Hk.
  cbv zeta in Hk.
  set (s := Entities.Pool.tickSpacing pool) in *.
  set (t := Entities.Pool.tickCurrent pool) in *.
  set (k := Math_round _) in *.
  assert (Hms : (2 * s <= multiplier * s)%Z) by nia.
  exists (k * s)%Z, (k * s + multiplier * s)%Z.
  split; [|split; lia].
  intro BN. rewrite (closestActiveRange_inside BN pool multiplier Ht).
  cbv zeta. fold s t k.
  replace (k * s =? t)%Z with false
    by (symmetry; apply Z.eqb_neq; lia).
  rewrite andb_false_r. reflexivity.
Qed.

(** A pool at tick 120 with spacing 60 and three spacings asked for. *)
Lemma closest_active_range_centred_example :
  exists lo hi : Z,
    (forall BN : string -> Z,
        PoolHelper.closestActiveRange BN
          (examplePool "18446744073709551616" 120 60) 3 = Ok (lo, hi)) /\
    (lo <= 120 < hi)%Z /\ (- (60) <= 2 * 120 - (lo + hi) < 60)%Z.
Proof.
  apply (closest_active_range_centred
           (examplePool "18446744073709551616" 120 60) 3); simpl; lia.
Defined.

(** X7. With the default multiplier 1 the range is the cell of the
    spacing grid that holds the current tick, [tickSpacing * floor
    (tickCurrent / tickSpacing)] and one spacing above, except when the
    current tick lies on the grid and the sqrt price of the pool is below
    the sqrt price of that tick: then it is the cell that ends at the
    current tick. *)
Theorem closest_active_range_grid_cell (BN : string -> Z)
  (pool : Entities.Pool.t) (v : Z) :
  (0 < Entities.Pool.tickSpacing pool)%Z ->
  ClmmTickMath.tickIndexToSqrtPriceX64 (Entities.Pool.tickCurrent pool)
  = Ok v ->
  PoolHelper.closestActiveRange BN pool 1
  = Ok (if (BN (Entities.Pool.sqrtPriceX64 pool) <? v)%Z
           && (Entities.Pool.tickCurrent pool
               mod Entities.Pool.tickSpacing pool =? 0)%Z
        then ((Entities.Pool.tickCurrent pool
               - Entities.Pool.tickSpacing pool)%Z,
              Entities.Pool.tickCurrent pool)
        else ((Entities.Pool.tickSpacing pool
               * (Entities.Pool.tickCurrent pool
                  / Entities.Pool.tickSpacing pool))%Z,
              (Entities.Pool.tickSpacing pool
               * (Entities.Pool.tickCurrent pool
                  / Entities.Pool.tickSpacing pool)
               + Entities.Pool.tickSpacing pool)%Z)).
Proof.
  intros Hs Hv.
  pose proof (candidate_bounds (Entities.Pool.tickCurrent pool) 1
                (Entities.Pool.tickSpacing pool) Hs) as Hk.
  unfold PoolHelper.closestActiveRange. rewrite Hv. cbn [bind].
  cbv zeta in Hk.
  set (s := Entities.Pool.tickSpacing pool) in *.
  set (t := Entities.Pool.tickCurrent pool) in *.
  set (k := Math_round _) in *. clearbody k.
  assert (Ek : k = (t / s)%Z).
  { apply (Z.div_unique t s k (t - s * k)); lia. }
  pose proof (Z.div_mod t s ltac:(lia)) as Hdm.
  pose proof (Z.mod_pos_bound t s Hs) as Hmb.
  destruct (BN (Entities.Pool.sqrtPriceX64 pool) <? v)%Z; cbn [andb].
  - destruct (Z.eqb_spec (k * s) t) as [E|E];
      destruct (Z.eqb_spec (t mod s) 0) as [E'|E'].
    + f_equal. f_equal; lia.
    + exfalso. apply E'. rewrite <- E. apply Z.mod_mul. lia.
    + exfalso. apply E. rewrite Ek. lia.
    + f_equal. f_equal; rewrite Ek; lia.
  - f_equal. f_equal; rewrite Ek; lia.
Qed.

(** A pool at tick 120 with spacing 60 and the sqrt price of tick 0: the
    cell that ends at 120. *)
Lemma closest_active_range_grid_cell_example :
  PoolHelper.closestActiveRange digitsBN
    (examplePool "18446744073709551616" 120 60) 1 = Ok (60, 120)%Z.
Proof.
  rewrite (closest_active_range_grid_cell digitsBN
             (examplePool "18446744073709551616" 120 60)
             18557751677670031987).
  - reflexivity.
  - simpl. lia.
  - vm_compute. reflexivity.
Defined.

(** X8. When the current tick of the pool is outside [[-443636, 443636]]
    neither function answers: the out-of-bounds error of the tick
    conversion leaves [closestActiveRange] and [isOutOfRange], whatever
    the spacing, the multiplier and the position are. *)
Theorem closest_active_range_out_of_bounds (BN : string -> Z)
  (position : Entities.Position.t) (multiplier : Z) :
  let pool := Entities.Position.pool position in
  (Entities.Pool.tickCurrent pool < -443636
   \/ 443636 < Entities.Pool.tickCurrent pool)%Z ->
  PoolHelper.closestActiveRange BN pool multiplier
  = Throw (OutOfBoundsError (Entities.Pool.tickCurrent pool)) /\
  PoolHelper.isOutOfRange BN position multiplier
  = Throw (OutOfBoundsError (Entities.Pool.tickCurrent pool)).
Proof.
  intros pool H. unfold PoolHelper.isOutOfRange. fold pool.
  rewrite (closestActiveRange_outside BN pool multiplier H).
  split; reflexivity.
Qed.

(** A position on a pool whose current tick is 500000. *)
Lemma closest_active_range_out_of_bounds_example :
  PoolHelper.closestActiveRange digitsBN
    (examplePool "18446744073709551616" 500000 60) 1
  = Throw (OutOfBoundsError 500000) /\
  PoolHelper.isOutOfRange digitsBN
    (examplePosition (examplePool "18446744073709551616" 500000 60)
       499980 500040) 1
  = Throw (OutOfBoundsError 500000).
Proof.
  apply (closest_active_range_out_of_bounds digitsBN
           (examplePosition (examplePool "18446744073709551616" 500000 60)
              499980 500040) 1).
  simpl. lia.
Defined.

(** X9. [isOutOfRange] compares the position with the closest active
    range, not with the current tick.  For a positive spacing, a
    multiplier of at least 1 and a current tick inside the bounds it
    returns a verdict; the verdict [false] is given only to a position
    that is exactly [multiplier] spacings wide, starts on a multiple of
    the spacing and holds the current tick, and every position of another
    width gets [true], also one that holds the current tick. *)
Theorem is_out_of_range_verdict (BN : string -> Z)
  (position : Entities.Position.t) (multiplier : Z) :
  let pool := Entities.Position.pool position in
  let lower := Entities.Position.tickLower position in
  let upper := Entities.Position.tickUpper position in
  (0 < Entities.Pool.tickSpacing pool)%Z ->
  (1 <= multiplier)%Z ->
  (-443636 <= Entities.Pool.tickCurrent pool <= 443636)%Z ->
  exists verdict : bool,
    PoolHelper.isOutOfRange BN position multiplier = Ok verdict /\
    (verdict = false ->
     (upper - lower = multiplier * Entities.Pool.tickSpacing pool)%Z /\
     (lower mod Entities.Pool.tickSpacing pool = 0)%Z /\
     (lower <= Entities.Pool.tickCurrent pool <= upper)%Z) /\
    ((upper - lower)%Z <> (multiplier * Entities.Pool.tickSpacing pool)%Z ->
     verdict = true).
Proof.
  intros pool lower upper Hs Hm Ht.
  destruct (closestActiveRange_lowerTick BN pool multiplier Hs Hm Ht)
    as (lo & E & Hlo & Hin).
  unfold PoolHelper.isOutOfRange. fold pool lower upper.
  rewrite E. cbn [bind fst snd].
  set (hi := (lo + multiplier * Entities.Pool.tickSpacing pool)%Z) in *.
  exists (negb (lower =? lo)%Z || negb (upper =? hi)%Z)%bool.
  split; [reflexivity|].
  destruct (Z.eqb_spec lower lo) as [El|El];
    destruct (Z.eqb_spec upper hi) as [Eu|Eu]; cbn [negb orb].
  - split; [intros _|intro Hne; exfalso; apply Hne; unfold hi in Eu; lia].
    rewrite El, Eu. split; [unfold hi; ring|]. split; assumption.
  - split; [discriminate | reflexivity].
  - split; [discriminate | reflexivity].
  - split; [discriminate | reflexivity].
Qed.

(** The position [-1000, 1000] of the repository's tests on its pool at
    tick 0 with spacing 60: it holds the current tick and is out of range
    for one spacing. *)
Lemma is_out_of_range_verdict_example :
  exists verdict : bool,
    PoolHelper.isOutOfRange digitsBN
      (examplePosition (examplePool "18446744073709551616" 0 60)
         (-1000) 1000) 1 = Ok verdict /\
    (verdict = false ->
     (1000 - (-1000) = 1 * 60)%Z /\ ((-1000) mod 60 = 0)%Z /\
     (-1000 <= 0 <= 1000)%Z) /\
    ((1000 - (-1000))%Z <> (1 * 60)%Z -> verdict = true).
Proof.
  apply (is_out_of_range_verdict digitsBN
           (examplePosition (examplePool "18446744073709551616" 0 60)
              (-1000) 1000) 1); simpl; lia.
Defined.

(** ** Collecting rewards *)

Lemma collectReward_some (packageId globalConfigId : string)
  (position : Entities.Position.t) (tx : Ptb.t) (i : nat)
  (info : Entities.RewardInfo.t) (poolReward : Entities.PoolReward.t) :
  nth_error (Entities.Position.rewardInfos position) i = Some info ->
  nth_error (Entities.Pool.poolRewards (Entities.Position.pool position)) i
  = Some poolReward ->
  CollectFees.collectReward packageId globalConfigId position tx i
  = inr ((tx ++ CollectFees.collectRewardCall packageId globalConfigId
                  position poolReward :: nil)%list,
         Ptb.NestedResult (length tx) 0).
Proof.
  intros H1 H2. unfold CollectFees.collectReward. rewrite H1, H2.
  reflexivity.
Qed.

Lemma collectReward_no_pool_reward (packageId globalConfigId : string)
  (position : Entities.Position.t) (tx : Ptb.t) (i : nat)
  (info : Entities.RewardInfo.t) :
  nth_error (Entities.Position.rewardInfos position) i = Some info ->
  nth_error (Entities.Pool.poolRewards (Entities.Position.pool position)) i
  = None ->
  CollectFees.collectReward packageId globalConfigId position tx i
  = inl (CollectFees.NoPoolReward i).
Proof.
  intros H1 H2. unfold CollectFees.collectReward. rewrite H1, H2.
  reflexivity.
Qed.

Lemma nth_error_some_lt {A : Type} (l : list A) (i : nat) :
  (i < length l)%nat -> exists a, nth_error l i = Some a.
Proof.
  intro H. destruct (nth_error l i) as [a|] eqn:E; [exists a; reflexivity|].
  apply nth_error_None in E. lia.
Qed.

Lemma skipn_nth_error {A : Type} (l : list A) (i : nat) (a : A) :
  nth_error l i = Some a -> skipn i l = a :: skipn (S i) l.
Proof.
  revert l. induction i as [|i IH]; intros [|b l] H; try discriminate.
  - simpl in H. injection H as ->. reflexivity.
  - simpl in H. rewrite (skipn_cons i b l). rewrite (IH l H). reflexivity.
Qed.

(** The loop from index [i] on: the pool rewards from [i] up to the
    shorter of the two lists are collected in order. *)
Lemma collectAllRewards_loop_spec (packageId globalConfigId : string)
  (position : Entities.Position.t) (count : nat) :
  forall (i : nat) (tx : Ptb.t) (rewards : list Ptb.Argument),
  (i + count <= length (Entities.Position.rewardInfos position))%nat ->
  let poolRewards :=
    Entities.Pool.poolRewards (Entities.Position.pool position) in
  let m := (Nat.min (i + count) (length poolRewards) - i)%nat in
  CollectFees.collectAllRewards_loop packageId globalConfigId position
    count i tx rewards
  = ((tx ++ map (CollectFees.collectRewardCall packageId globalConfigId
                   position)
                (firstn m (skipn i poolRewards)))%list,
     (rewards ++ map (fun k => Ptb.NestedResult (length tx + k) 0)
                     (seq 0 m))%list).
Proof.
  induction count as [|count IH]; intros i tx rewards Hi poolRewards m.
  - assert (E : m = 0%nat) by (unfold m; lia). rewrite E. simpl.
    rewrite !app_nil_r. reflexivity.
  - cbn [CollectFees.collectAllRewards_loop].
    destruct (nth_error_some_lt
                (Entities.Position.rewardInfos position) i ltac:(lia))
      as [info Hinfo].
    destruct (nth_error poolRewards i) as [pr|] eqn:Hpr.
    + assert (Hlt : (i < length poolRewards)%nat)
        by (apply nth_error_Some; rewrite Hpr; discriminate).
      rewrite (collectReward_some _ _ _ tx i info pr Hinfo Hpr).
      rewrite (IH (S i) _ _ ltac:(lia)). fold poolRewards.
      set (m' := (Nat.min (S i + count) (length poolRewards) - S i)%nat).
      assert (E : m = S m') by (unfold m, m'; lia). rewrite E.
      rewrite (skipn_nth_error poolRewards i pr Hpr).
      cbn [firstn map seq]. rewrite <- seq_shift, map_map.
      rewrite <- !app_assoc. rewrite Nat.add_0_r.
      f_equal. f_equal. match goal with
      | |- ((?a :: nil) ++ ?l)%list = _ => change ((a :: nil) ++ l)%list with (a :: l)
      end.
      f_equal. apply map_ext. intro k. rewrite length_app. cbn [Datatypes.length].
      f_equal. lia.
    + assert (Hge : (length poolRewards <= i)%nat)
        by (apply nth_error_None; exact Hpr).
      rewrite (collectReward_no_pool_reward _ _ _ tx i info Hinfo Hpr).
      rewrite (IH (S i) _ _ ltac:(lia)). fold poolRewards.
      assert (E : m = 0%nat) by (unfold m; lia).
      assert (E' : (Nat.min (S i + count) (length poolRewards) - S i
                    = 0)%nat) by lia.
      rewrite E, E'. reflexivity.
Qed.

(** X10. [collectAllRewards] never throws and collects as many rewards as
    the shorter of the position's reward infos and the pool's rewards has:
    it appends one [collect_reward] call for each of these pool rewards,
    in order, after the commands the transaction already had, and the
    k-th value returned is the first result of the k-th appended call.
    A reward info without a pool reward is passed over. *)
Theorem collect_all_rewards_result (packageId globalConfigId : string)
  (position : Entities.Position.t) (tx : Ptb.t) :
  let poolRewards :=
    Entities.Pool.poolRewards (Entities.Position.pool position) in
  let n := Nat.min (length (Entities.Position.rewardInfos position))
                   (length poolRewards) in
  CollectFees.collectAllRewards packageId globalConfigId position tx
  = ((tx ++ map (CollectFees.collectRewardCall packageId globalConfigId
                   position)
                (firstn n poolRewards))%list,
     map (fun k => Ptb.NestedResult (length tx + k) 0) (seq 0 n)).
Proof.
  intros poolRewards n. unfold CollectFees.collectAllRewards.
  rewrite (collectAllRewards_loop_spec packageId globalConfigId position
             (length (Entities.Position.rewardInfos position)) 0%nat tx nil
             (Nat.le_refl _)).
  fold poolRewards. cbn [Nat.add skipn Datatypes.app].
  rewrite Nat.sub_0_r. reflexivity.
Qed.

(** X11. [collectReward] throws before it touches the transaction: the
    error about the reward info for an index past the position's reward
    infos, also when the pool has a reward there, and the error about the
    pool reward for an index past the pool's rewards.  With both present
    it appends the [collect_reward] call of that pool reward and returns
    the first result of the appended command. *)
Theorem collect_reward_cases (packageId globalConfigId : string)
  (position : Entities.Position.t) (tx : Ptb.t) (rewardIndex : nat) :
  let rewardInfos := Entities.Position.rewardInfos position in
  let poolRewards :=
    Entities.Pool.poolRewards (Entities.Position.pool position) in
  ((length rewardInfos <= rewardIndex)%nat ->
   CollectFees.collectReward packageId globalConfigId position tx
     rewardIndex = inl (CollectFees.NoReward rewardIndex)) /\
  ((rewardIndex < length rewardInfos)%nat ->
   (length poolRewards <= rewardIndex)%nat ->
   CollectFees.collectReward packageId globalConfigId position tx
     rewardIndex = inl (CollectFees.NoPoolReward rewardIndex)) /\
  ((rewardIndex < length rewardInfos)%nat ->
   (rewardIndex < length poolRewards)%nat ->
   exists poolReward,
     nth_error poolRewards rewardIndex = Some poolReward /\
     CollectFees.collectReward packageId globalConfigId position tx
       rewardIndex
     = inr ((tx ++ CollectFees.collectRewardCall packageId globalConfigId
                     position poolReward :: nil)%list,
            Ptb.NestedResult (length tx) 0)).
Proof.
  intros rewardInfos poolRewards. split; [|split].
  - intro H. unfold CollectFees.collectReward.
    fold rewardInfos. apply nth_error_None in H. rewrite H. reflexivity.
  - intros H1 H2.
    destruct (nth_error_some_lt rewardInfos rewardIndex H1) as [info Hi].
    apply (collectReward_no_pool_reward _ _ _ tx rewardIndex info Hi).
    apply nth_error_None. exact H2.
  - intros H1 H2.
    destruct (nth_error_some_lt rewardInfos rewardIndex H1) as [info Hi].
    destruct (nth_error_some_lt poolRewards rewardIndex H2) as [pr Hp].
    exists pr. split; [exact Hp|].
    apply (collectReward_some _ _ _ tx rewardIndex info pr Hi Hp).
Qed.

(** A position with two reward infos on a pool with one reward: index 2,
    index 1 and index 0, on an empty transaction. *)
Lemma collect_reward_cases_example :
  CollectFees.collectReward "0xpackage" "0xconfig" rewardPosition nil 2
  = inl (CollectFees.NoReward 2) /\
  CollectFees.collectReward "0xpackage" "0xconfig" rewardPosition nil 1
  = inl (CollectFees.NoPoolReward 1) /\
  exists poolReward,
    nth_error (Entities.Pool.poolRewards rewardPool) 0 = Some poolReward /\
    CollectFees.collectReward "0xpackage" "0xconfig" rewardPosition nil 0
    = inr ((nil ++ CollectFees.collectRewardCall "0xpackage" "0xconfig"
                     rewardPosition poolReward :: nil)%list,
           Ptb.NestedResult 0 0).
Proof.
  split; [|split].
  - apply (proj1 (collect_reward_cases "0xpackage" "0xconfig"
                    rewardPosition nil 2)). simpl. lia.
  - apply (proj1 (proj2 (collect_reward_cases "0xpackage" "0xconfig"
                           rewardPosition nil 1))); simpl; lia.
  - apply (proj2 (proj2 (collect_reward_cases "0xpackage" "0xconfig"
                           rewardPosition nil 0))); simpl; lia.
Defined.

(** ** Well-formed transactions *)

Lemma refersBack_app (tx tx' : Ptb.t) (i : nat) (c : Ptb.Command) :
  Ptb.refersBack tx i c = true -> Ptb.refersBack (tx ++ tx') i c = true.
Proof.
  unfold Ptb.refersBack. rewrite !forallb_forall. intros H a Ha.
  specialize (H a Ha). destruct (Ptb.reference a) as [n|]; [|reflexivity].
  apply andb_prop in H. destruct H as [H1 H2]. rewrite H1. cbn [andb].
  destruct (nth_error tx n) as [c'|] eqn:E; [|discriminate].
  rewrite nth_error_app1 by (apply nth_error_Some; rewrite E; discriminate).
  rewrite E. exact H2.
Qed.

Lemma wellFormed_from_app (tx tx' : Ptb.t) (rest : list Ptb.Command) :
  forall i : nat,
  Ptb.wellFormed_from tx i rest = true ->
  Ptb.wellFormed_from (tx ++ tx') i rest = true.
Proof.
  induction rest as [|c rest IH]; intros i H; [reflexivity|].
  cbn [Ptb.wellFormed_from] in *. apply andb_prop in H.
  destruct H as [H1 H2].
  rewrite (refersBack_app tx tx' i c H1), (IH (S i) H2). reflexivity.
Qed.

Lemma wellFormed_from_snoc (tx : Ptb.t) (rest : list Ptb.Command)
  (c : Ptb.Command) :
  forall i : nat,
  Ptb.wellFormed_from tx i rest = true ->
  Ptb.refersBack tx (i + length rest) c = true ->
  Ptb.wellFormed_from tx i (rest ++ c :: nil) = true.
Proof.
  induction rest as [|d rest IH]; intros i H Hc.
  - cbn [Datatypes.app Ptb.wellFormed_from Datatypes.length] in *.
    rewrite Nat.add_0_r in Hc. rewrite Hc. reflexivity.
  - cbn [Datatypes.app Ptb.wellFormed_from Datatypes.length] in *.
    apply andb_prop in H.
    destruct H as [H1 H2]. rewrite H1. cbn [andb].
    apply IH; [exact H2|].
    replace (S i + length rest)%nat with (i + S (length rest))%nat by lia.
    exact Hc.
Qed.

(** A command without results among its arguments keeps a transaction
    well formed. *)
Lemma wellFormed_add (tx : Ptb.t) (c : Ptb.Command) :
  Ptb.wellFormed tx = true ->
  forallb (fun a => match Ptb.reference a with
                    | Some _ => false
                    | None => true
                    end) (Ptb.arguments_of c) = true ->
  Ptb.wellFormed (tx ++ c :: nil) = true.
Proof.
  unfold Ptb.wellFormed. intros H Hc.
  apply wellFormed_from_snoc.
  - apply wellFormed_from_app. exact H.
  - unfold Ptb.refersBack. rewrite forallb_forall in *. intros a Ha.
    specialize (Hc a Ha). destruct (Ptb.reference a); [discriminate|].
    reflexivity.
Qed.

Lemma wellFormed_add_calls (position : Entities.Position.t)
  (packageId globalConfigId : string)
  (poolRewards : list Entities.PoolReward.t) :
  forall tx : Ptb.t,
  Ptb.wellFormed tx = true ->
  Ptb.wellFormed
    (tx ++ map (CollectFees.collectRewardCall packageId globalConfigId
                  position) poolRewards) = true.
Proof.
  induction poolRewards as [|pr poolRewards IH]; intros tx H.
  - cbn [map]. rewrite app_nil_r. exact H.
  - cbn [map].
    replace (tx ++ CollectFees.collectRewardCall packageId globalConfigId
                     position pr
                :: map (CollectFees.collectRewardCall packageId
                          globalConfigId position) poolRewards)%list
      with ((tx ++ CollectFees.collectRewardCall packageId globalConfigId
                     position pr :: nil)
            ++ map (CollectFees.collectRewardCall packageId globalConfigId
                      position) poolRewards)%list
      by (rewrite <- app_assoc; reflexivity).
    apply IH. apply wellFormed_add; [exact H | reflexivity].
Qed.

(** X20. [collectFees] followed by [collectAllRewards] keeps a well-formed
    transaction well formed, keeps the commands it had in their places,
    and every value the two functions return names a result of a move
    call of the final transaction. *)
Theorem collect_keeps_well_formed (packageId globalConfigId : string)
  (position : Entities.Position.t) (tx : Ptb.t) :
  Ptb.wellFormed tx = true ->
  let collected := CollectFees.collectFees packageId globalConfigId
                     position tx in
  let rewarded := CollectFees.collectAllRewards packageId globalConfigId
                    position (fst collected) in
  Ptb.wellFormed (fst rewarded) = true /\
  firstn (length tx) (fst rewarded) = tx /\
  Ptb.namesMoveCall (fst rewarded) (fst (snd collected)) = true /\
  Ptb.namesMoveCall (fst rewarded) (snd (snd collected)) = true /\
  Forall (fun reward => Ptb.namesMoveCall (fst rewarded) reward = true)
         (snd rewarded).
Proof.
  intros H collected rewarded. unfold rewarded, collected.
  unfold CollectFees.collectAllRewards.
  rewrite (collectAllRewards_loop_spec packageId globalConfigId position
             (length (Entities.Position.rewardInfos position)) 0%nat _ nil
             (Nat.le_refl _)).
  cbn [Nat.add skipn Datatypes.app]. rewrite Nat.sub_0_r.
  unfold CollectFees.collectFees, Ptb.add. cbn [fst snd].
  set (fee := CollectFees.collectFeeCall packageId globalConfigId position).
  set (calls := map _ (firstn _ _)).
  set (n := Nat.min _ _).
  assert (Hn : length calls = n).
  { unfold calls, n. rewrite length_map, length_firstn. lia. }
  assert (Hfee : nth_error ((tx ++ fee :: nil) ++ calls) (length tx)
                 = Some fee).
  { rewrite <- app_assoc. rewrite nth_error_app2 by lia.
    rewrite Nat.sub_diag. reflexivity. }
  split; [|split; [|split; [|split]]].
  - apply wellFormed_add_calls.
    apply wellFormed_add; [exact H | reflexivity].
  - rewrite <- app_assoc. rewrite firstn_app, Nat.sub_diag.
    cbn [firstn]. rewrite firstn_all, app_nil_r. reflexivity.
  - unfold Ptb.namesMoveCall. cbn [Ptb.reference]. rewrite Hfee.
    reflexivity.
  - unfold Ptb.namesMoveCall. cbn [Ptb.reference]. rewrite Hfee.
    reflexivity.
  - apply Forall_forall. intros reward Hin.
    apply in_map_iff in Hin. destruct Hin as (k & <- & Hk).
    apply in_seq in Hk.
    unfold Ptb.namesMoveCall. cbn [Ptb.reference].
    rewrite length_app. cbn [Datatypes.length].
    rewrite nth_error_app2 by (rewrite length_app; cbn [Datatypes.length]; lia).
    rewrite length_app. cbn [Datatypes.length].
    replace (length tx + 1 + k - (length tx + 1))%nat with k by lia.
    unfold calls.
    destruct (nth_error (map _ _) k) as [c|] eqn:E.
    + apply nth_error_In in E. apply in_map_iff in E.
      destruct E as (pr & <- & _). reflexivity.
    + apply nth_error_None in E. fold calls in E. lia.
Qed.

(** The position with two reward infos on the pool with one reward, and
    an empty transaction. *)
Lemma collect_keeps_well_formed_example :
  let collected := CollectFees.collectFees "0xpackage" "0xconfig"
                     rewardPosition nil in
  let rewarded := CollectFees.collectAllRewards "0xpackage" "0xconfig"
                    rewardPosition (fst collected) in
  Ptb.wellFormed (fst rewarded) = true /\
  firstn (length (@nil Ptb.Command)) (fst rewarded) = nil /\
  Ptb.namesMoveCall (fst rewarded) (fst (snd collected)) = true /\
  Ptb.namesMoveCall (fst rewarded) (snd (snd collected)) = true /\
  Forall (fun reward => Ptb.namesMoveCall (fst rewarded) reward = true)
         (snd rewarded).
Proof.
  apply (collect_keeps_well_formed "0xpackage" "0xconfig" rewardPosition nil).
  reflexivity.
Defined.

(** ** Execution with retries *)

Lemma retry_from_first_success (minMs maxMs : Z)
  (client : nat -> result SuiClientService.Response.t)
  (response : SuiClientService.Response.t) (k : nat) :
  forall (retriesLeft attempt : nat) (waits : list Z),
  (k <= retriesLeft)%nat ->
  (forall i, (i < k)%nat ->
     exists e, SuiClientService.attemptOnce client (attempt + i) = Throw e) ->
  SuiClientService.attemptOnce client (attempt + k) = Ok response ->
  SuiClientService.executeWithTypeArgRetry_from minMs maxMs client
    retriesLeft attempt waits
  = (Ok response,
     (waits ++ map (SuiClientService.retryDelay minMs maxMs)
                   (seq attempt k))%list).
Proof.
  induction k as [|k IH]; intros retriesLeft attempt waits Hk Hfail Hok.
  - rewrite Nat.add_0_r in Hok.
    destruct retriesLeft; cbn [SuiClientService.executeWithTypeArgRetry_from];
      rewrite Hok; simpl; rewrite app_nil_r; reflexivity.
  - destruct retriesLeft as [|retriesLeft]; [lia|].
    cbn [SuiClientService.executeWithTypeArgRetry_from].
    destruct (Hfail 0%nat ltac:(lia)) as [e He].
    rewrite Nat.add_0_r in He. rewrite He.
    rewrite (IH retriesLeft (S attempt)).
    + cbn [seq map]. rewrite <- app_assoc. reflexivity.
    + lia.
    + intros i Hi. destruct (Hfail (S i) ltac:(lia)) as [e' He'].
      exists e'. rewrite <- He'. f_equal. lia.
    + rewrite <- Hok. f_equal. lia.
Qed.

Lemma retry_from_exhausted (minMs maxMs : Z)
  (client : nat -> result SuiClientService.Response.t) :
  forall (retriesLeft attempt : nat) (waits : list Z) (lastError : Error),
  (forall i, (i < retriesLeft)%nat ->
     exists e, SuiClientService.attemptOnce client (attempt + i) = Throw e) ->
  SuiClientService.attemptOnce client (attempt + retriesLeft)
  = Throw lastError ->
  SuiClientService.executeWithTypeArgRetry_from minMs maxMs client
    retriesLeft attempt waits
  = (Throw lastError,
     (waits ++ map (SuiClientService.retryDelay minMs maxMs)
                   (seq attempt retriesLeft))%list).
Proof.
  induction retriesLeft as [|retriesLeft IH];
    intros attempt waits lastError Hfail Hlast.
  - rewrite Nat.add_0_r in Hlast.
    cbn [SuiClientService.executeWithTypeArgRetry_from].
    rewrite Hlast. simpl. rewrite app_nil_r. reflexivity.
  - cbn [SuiClientService.executeWithTypeArgRetry_from].
    destruct (Hfail 0%nat ltac:(lia)) as [e He].
    rewrite Nat.add_0_r in He. rewrite He.
    rewrite (IH (S attempt) _ lastError).
    + cbn [seq map]. rewrite <- app_assoc. reflexivity.
    + intros i Hi. destruct (Hfail (S i) ltac:(lia)) as [e' He'].
      exists e'. rewrite <- He'. f_equal. lia.
    + rewrite <- Hlast. f_equal. lia.
Qed.

(** The waits of a run are the delays of the attempts before the last one
    made; the last one gives the outcome. *)
Lemma retry_from_trace (minMs maxMs : Z)
  (client : nat -> result SuiClientService.Response.t) :
  forall (retriesLeft attempt : nat) (waits : list Z),
  exists k : nat,
    (k <= retriesLeft)%nat /\
    SuiClientService.executeWithTypeArgRetry_from minMs maxMs client
      retriesLeft attempt waits
    = (SuiClientService.attemptOnce client (attempt + k),
       (waits ++ map (SuiClientService.retryDelay minMs maxMs)
                     (seq attempt k))%list).
Proof.
  induction retriesLeft as [|retriesLeft IH]; intros attempt waits.
  - exists 0%nat. split; [lia|]. rewrite Nat.add_0_r.
    cbn [SuiClientService.executeWithTypeArgRetry_from].
    destruct (SuiClientService.attemptOnce client attempt);
      simpl; rewrite app_nil_r; reflexivity.
  - cbn [SuiClientService.executeWithTypeArgRetry_from].
    destruct (SuiClientService.attemptOnce client attempt) eqn:E.
    + exists 0%nat. split; [lia|]. rewrite Nat.add_0_r, E. simpl.
      rewrite app_nil_r. reflexivity.
    + destruct (IH (S attempt)
                  (waits ++ SuiClientService.retryDelay minMs maxMs attempt
                            :: nil)%list) as (k & Hk & Ek).
      exists (S k). split; [lia|]. rewrite Ek.
      replace (attempt + S k)%nat with (S attempt + k)%nat by lia.
      cbn [seq map]. rewrite <- app_assoc. reflexivity.
Qed.

Lemma retryDelay_le_maxDelay (minMs maxMs : Z) (attempt : nat) :
  (SuiClientService.retryDelay minMs maxMs attempt
   <= SuiClientService.maxDelay maxMs)%Z.
Proof. unfold SuiClientService.retryDelay. apply Z.le_min_r. Qed.

Lemma sum_delays_le (minMs maxMs : Z) (k attempt : nat) :
  (fold_right Z.add 0%Z (map (SuiClientService.retryDelay minMs maxMs)
                             (seq attempt k))
   <= Z.of_nat k * SuiClientService.maxDelay maxMs)%Z.
Proof.
  revert attempt. induction k as [|k IH]; intro attempt.
  - simpl. lia.
  - cbn [seq map fold_right].
    pose proof (retryDelay_le_maxDelay minMs maxMs attempt).
    pose proof (IH (S attempt)). lia.
Qed.

(** X12. When the first [k] attempts fail and attempt [k], not past
    [maxRetries], succeeds, [executeWithTypeArgRetry] returns the response
    of attempt [k] and has waited [k] times, before retry [i] for
    [min(baseDelay * 2^i, maxDelay)] milliseconds; later responses of the
    client are not asked for. *)
Theorem retry_returns_first_success (minRetryDelayMs maxRetryDelayMs : Z)
  (client : nat -> result SuiClientService.Response.t)
  (maxRetries k : nat) (response : SuiClientService.Response.t) :
  (k <= maxRetries)%nat ->
  (forall i, (i < k)%nat ->
     exists e, SuiClientService.attemptOnce client i = Throw e) ->
  SuiClientService.attemptOnce client k = Ok response ->
  SuiClientService.executeWithTypeArgRetry minRetryDelayMs maxRetryDelayMs
    client maxRetries
  = (Ok response,
     map (fun i => Z.min (SuiClientService.baseDelay minRetryDelayMs
                          * 2 ^ Z.of_nat i)
                         (SuiClientService.maxDelay maxRetryDelayMs))
         (seq 0 k)).
Proof.
  intros Hk Hfail Hok. unfold SuiClientService.executeWithTypeArgRetry.
  rewrite (retry_from_first_success minRetryDelayMs maxRetryDelayMs client
             response k maxRetries 0%nat nil Hk Hfail Hok).
  reflexivity.
Qed.

(** The client that fails twice, with the delays of the README (1000 and
    30000 ms): the third response after waits of 1000 and 2000 ms. *)
Lemma retry_returns_first_success_example :
  SuiClientService.executeWithTypeArgRetry 1000 30000 failingTwice 5
  = (Ok successResponse, (1000 :: 2000 :: nil)%Z).
Proof.
  apply (retry_returns_first_success 1000 30000 failingTwice 5 2
           successResponse).
  - lia.
  - intros i Hi. exists (RpcError "fetch failed").
    destruct i as [|[|i]]; [reflexivity | reflexivity | lia].
  - reflexivity.
Defined.

(** X13. When every attempt up to [maxRetries] fails,
    [executeWithTypeArgRetry] throws the error of the last attempt, not an
    earlier one, after [maxRetries + 1] attempts and [maxRetries] waits:
    there is no wait after the last failure. *)
Theorem retry_exhausted_throws_last (minRetryDelayMs maxRetryDelayMs : Z)
  (client : nat -> result SuiClientService.Response.t)
  (maxRetries : nat) (lastError : Error) :
  (forall i, (i < maxRetries)%nat ->
     exists e, SuiClientService.attemptOnce client i = Throw e) ->
  SuiClientService.attemptOnce client maxRetries = Throw lastError ->
  SuiClientService.executeWithTypeArgRetry minRetryDelayMs maxRetryDelayMs
    client maxRetries
  = (Throw lastError,
     map (SuiClientService.retryDelay minRetryDelayMs maxRetryDelayMs)
         (seq 0 maxRetries)) /\
  length (snd (SuiClientService.executeWithTypeArgRetry minRetryDelayMs
                 maxRetryDelayMs client maxRetries)) = maxRetries.
Proof.
  intros Hfail Hlast.
  assert (E : SuiClientService.executeWithTypeArgRetry minRetryDelayMs
                maxRetryDelayMs client maxRetries
              = (Throw lastError,
                 map (SuiClientService.retryDelay minRetryDelayMs
                        maxRetryDelayMs) (seq 0 maxRetries))).
  { unfold SuiClientService.executeWithTypeArgRetry.
    rewrite (retry_from_exhausted minRetryDelayMs maxRetryDelayMs client
               maxRetries 0%nat nil lastError Hfail Hlast).
    reflexivity. }
  split; [exact E|]. rewrite E. cbn [snd].
  rewrite length_map, length_seq. reflexivity.
Qed.

(** A transaction that the chain rejects every time, unset delays (0
    stands for the defaults) and the five retries of
    [executeTransactionWithoutSimulation]. *)
Lemma retry_exhausted_throws_last_example :
  SuiClientService.executeTransactionWithoutSimulation 0 0 alwaysFailing
  = (Throw (RpcError "Transaction execution failed: InsufficientGas"),
     (1000 :: 2000 :: 4000 :: 8000 :: 16000 :: nil)%Z) /\
  length (snd (SuiClientService.executeTransactionWithoutSimulation 0 0
                 alwaysFailing)) = 5%nat.
Proof.
  apply (retry_exhausted_throws_last 0 0 alwaysFailing 5
           (RpcError "Transaction execution failed: InsufficientGas")).
  - intros i _.
    exists (RpcError "Transaction execution failed: InsufficientGas").
    reflexivity.
  - reflexivity.
Defined.

(** X14. Whatever the client answers, a run of [executeWithTypeArgRetry]
    makes at most [maxRetries + 1] attempts and waits before each one but
    the first; no wait is longer than [maxDelay], and for a maximal delay
    that is not negative the waits add up to at most [maxRetries *
    maxDelay] milliseconds.  [executeTransactionWithoutSimulation] fixes
    five retries whatever [config.maxRetries] says: at most six attempts
    and [5 * maxDelay] milliseconds of waiting. *)
Theorem retry_waits_bounded (minRetryDelayMs maxRetryDelayMs : Z)
  (client : nat -> result SuiClientService.Response.t) (maxRetries : nat) :
  (0 <= maxRetryDelayMs)%Z ->
  let run := SuiClientService.executeWithTypeArgRetry minRetryDelayMs
               maxRetryDelayMs client maxRetries in
  let maxDelay := SuiClientService.maxDelay maxRetryDelayMs in
  (exists k : nat,
      (k <= maxRetries)%nat /\
      fst run = SuiClientService.attemptOnce client k /\
      length (snd run) = k) /\
  Forall (fun wait => (wait <= maxDelay)%Z) (snd run) /\
  (fold_right Z.add 0%Z (snd run) <= Z.of_nat maxRetries * maxDelay)%Z /\
  (fold_right Z.add 0%Z
     (snd (SuiClientService.executeTransactionWithoutSimulation
             minRetryDelayMs maxRetryDelayMs client))
   <= 5 * maxDelay)%Z.
Proof.
  intros Hmax run maxDelay.
  assert (Hpos : (0 < maxDelay)%Z).
  { unfold maxDelay, SuiClientService.maxDelay, SuiClientService.orElse.
    destruct (Z.eqb_spec maxRetryDelayMs 0); lia. }
  assert (Hgen : forall n : nat,
    exists k : nat, (k <= n)%nat /\
      SuiClientService.executeWithTypeArgRetry minRetryDelayMs
        maxRetryDelayMs client n
      = (SuiClientService.attemptOnce client k,
         map (SuiClientService.retryDelay minRetryDelayMs maxRetryDelayMs)
             (seq 0 k))).
  { intro n. unfold SuiClientService.executeWithTypeArgRetry.
    destruct (retry_from_trace minRetryDelayMs maxRetryDelayMs client
                n 0%nat nil) as (k & Hk & E).
    exists k. split; [exact Hk|]. rewrite E. reflexivity. }
  destruct (Hgen maxRetries) as (k & Hk & E).
  destruct (Hgen 5%nat) as (k5 & Hk5 & E5).
  split; [|split; [|split]].
  - exists k. split; [exact Hk|]. unfold run. rewrite E. cbn [fst snd].
    split; [reflexivity|]. rewrite length_map, length_seq. reflexivity.
  - unfold run. rewrite E. cbn [snd]. apply Forall_forall.
    intros wait Hin. apply in_map_iff in Hin. destruct Hin as (i & <- & _).
    apply retryDelay_le_maxDelay.
  - unfold run. rewrite E. cbn [snd].
    pose proof (sum_delays_le minRetryDelayMs maxRetryDelayMs k 0) as Hs.
    fold maxDelay in Hs. nia.
  - unfold SuiClientService.executeTransactionWithoutSimulation.
    rewrite E5. cbn [snd].
    pose proof (sum_delays_le minRetryDelayMs maxRetryDelayMs k5 0) as Hs.
    fold maxDelay in Hs. nia.
Qed.

(** The client that fails twice under [maxRetries = 3] and delays of 1000
    and 30000 ms. *)
Lemma retry_waits_bounded_example :
  let run := SuiClientService.executeWithTypeArgRetry 1000 30000
               failingTwice 3 in
  (exists k : nat,
      (k <= 3)%nat /\
      fst run = SuiClientService.attemptOnce failingTwice k /\
      length (snd run) = k) /\
  Forall (fun wait => (wait <= 30000)%Z) (snd run) /\
  (fold_right Z.add 0%Z (snd run) <= Z.of_nat 3 * 30000)%Z /\
  (fold_right Z.add 0%Z
     (snd (SuiClientService.executeTransactionWithoutSimulation
             1000 30000 failingTwice))
   <= 5 * 30000)%Z.
Proof.
  apply (retry_waits_bounded 1000 30000 failingTwice 3). lia.
Defined.

(** ** One pass of the bot *)

(** X15. A pass of [checkAndRebalance] calls [rebalance] exactly when the
    first reading of pool and position succeeds and its decision is to
    rebalance, and the second reading succeeds as well.  The pool and the
    position handed to [rebalance] are those of the second reading: the
    decision was taken on the first, and nothing is checked on the
    second. *)
Theorem bot_rebalance_call (isTickInRange : Z -> Z -> Z -> bool)
  (calculatePriceDeviation : Z -> Z -> Z -> Q) (config : BotConfig.t)
  (getPool : nat -> result Pool.t) (getPosition : nat -> result Position.t)
  (rebalance : Pool.t -> Position.t -> result unit)
  (reading : nat) (pool : Pool.t) (position : Position.t) :
  In (RebalancingBot.RebalanceCall pool position)
     (fst (RebalancingBot.checkAndRebalance isTickInRange
             calculatePriceDeviation config getPool getPosition rebalance
             reading))
  <->
  exists (pool0 : Pool.t) (position0 : Position.t),
    getPool reading = Ok pool0 /\
    getPosition reading = Ok position0 /\
    RebalanceDecision.shouldRebalance
      (PositionMonitor.evaluate isTickInRange calculatePriceDeviation
         config pool0 position0) = true /\
    getPool (S reading) = Ok pool /\
    getPosition (S reading) = Ok position.
Proof.
  unfold RebalancingBot.checkAndRebalance, RebalancingBot.getCurrentState,
    PositionMonitor.checkRebalanceNeeded.
  split.
  - destruct (getPool reading) as [pool0|e]; cbn [bind];
      [|intros [H|[]]; discriminate].
    destruct (getPosition reading) as [position0|e]; cbn [bind];
      [|intros [H|[]]; discriminate].
    destruct (RebalanceDecision.shouldRebalance _) eqn:Es; cbn [negb];
      [|intros [H|[]]; discriminate].
    destruct (getPool (S reading)) as [pool1|e]; cbn [bind];
      [|intros [H|[]]; discriminate].
    destruct (getPosition (S reading)) as [position1|e]; cbn [bind];
      [|intros [H|[]]; discriminate].
    intro H. exists pool0, position0.
    split; [reflexivity|]. split; [reflexivity|]. split; [exact Es|].
    destruct (rebalance pool1 position1); cbn [fst] in H.
    + destruct H as [H|[]]. injection H as -> ->. split; reflexivity.
    + destruct H as [H|[H|[]]]; [|discriminate].
      injection H as -> ->. split; reflexivity.
  - intros (pool0 & position0 & E1 & E2 & Es & E3 & E4).
    rewrite E1, E2. cbn [bind]. rewrite Es. cbn [negb].
    rewrite E3, E4. cbn [bind].
    destruct (rebalance pool position); cbn [fst]; left; reflexivity.
Qed.

(** X16. When the current tick of the first reading is in the range of
    the position, the pass ends with the line of the in-range decision: it
    makes no second reading and does not call [rebalance], whatever the
    chain holds afterwards. *)
Theorem bot_in_range_no_call (isTickInRange : Z -> Z -> Z -> bool)
  (calculatePriceDeviation : Z -> Z -> Z -> Q) (config : BotConfig.t)
  (getPool : nat -> result Pool.t) (getPosition : nat -> result Position.t)
  (rebalance : Pool.t -> Position.t -> result unit)
  (reading : nat) (pool : Pool.t) (position : Position.t) :
  getPool reading = Ok pool ->
  getPosition reading = Ok position ->
  isTickInRange (Pool.currentTick pool) (Position.tickLower position)
    (Position.tickUpper position) = true ->
  RebalancingBot.checkAndRebalance isTickInRange calculatePriceDeviation
    config getPool getPosition rebalance reading
  = (RebalancingBot.NoAction "Position is in range" :: nil, S reading).
Proof.
  intros E1 E2 Hin.
  unfold RebalancingBot.checkAndRebalance,
    PositionMonitor.checkRebalanceNeeded, PositionMonitor.evaluate.
  rewrite E1, E2. cbn [bind]. rewrite Hin. reflexivity.
Qed.

(** The in-range position of scenario A, read from a chain that never
    changes. *)
Lemma bot_in_range_no_call_example :
  RebalancingBot.checkAndRebalance BotTickMath.isTickInRange
    BotTickMath.calculatePriceDeviation defaultConfig
    (fun _ => Ok (scenarioPool 12000))
    (fun _ => Ok (scenarioPosition 11000 13000))
    (fun _ _ => Ok tt) 0
  = (RebalancingBot.NoAction "Position is in range" :: nil, 1%nat).
Proof.
  apply (bot_in_range_no_call BotTickMath.isTickInRange
           BotTickMath.calculatePriceDeviation defaultConfig
           (fun _ => Ok (scenarioPool 12000))
           (fun _ => Ok (scenarioPosition 11000 13000))
           (fun _ _ => Ok tt) 0
           (scenarioPool 12000) (scenarioPosition 11000 13000));
    reflexivity.
Defined.

(** ** The atomic rebalance transaction *)








(** ** The tick of a sqrt price between two tick prices *)





(** ** The step-by-step rebalance *)

(** X21. The step-by-step [rebalance] is not atomic.  It succeeds exactly
    when the gas check, the three transactions and the range computation
    all succeed, and then it has sent the removal, the fee collection and
    the opening of the new position, in this order.  When the removal has
    gone through and the fee collection fails, that error is thrown after
    two transactions: the liquidity is out of the old position and no new
    position is opened.  In every run the transactions sent are the first
    ones of these three. *)
Theorem rebalance_steps_not_atomic
  (calculateTickRange : Z -> Q -> Z -> result TickRange.t)
  (config : BotConfig.t) (packageId globalConfigId : string)
  (checkGasPrice : result unit)
  (executeTransaction : nat -> Ptb.t -> result SuiClientService.Response.t)
  (pool : Pool.t) (position : Position.t) :
  let run := RebalanceSteps.rebalance calculateTickRange config packageId
               globalConfigId checkGasPrice executeTransaction
               pool position in
  let remove := RebalanceSteps.removeLiquidityTx packageId globalConfigId
                  position in
  let collect := RebalanceSteps.collectFeesTx packageId globalConfigId
                   position in
  let range := calculateTickRange (Pool.currentTick pool)
                 (BotConfig.rangeWidthPercent config)
                 (Pool.tickSpacing pool) in
  let open newRange :=
    RebalanceSteps.addLiquidityTx packageId globalConfigId pool
      (TickRange.tickLower newRange) (TickRange.tickUpper newRange) in
  (fst run = Ok tt <->
   exists (newRange : TickRange.t) (r0 r1 r2 : SuiClientService.Response.t),
     checkGasPrice = Ok tt /\
     executeTransaction 0%nat remove = Ok r0 /\
     executeTransaction 1%nat collect = Ok r1 /\
     range = Ok newRange /\
     executeTransaction 2%nat (open newRange) = Ok r2) /\
  (fst run = Ok tt ->
   exists newRange : TickRange.t,
     range = Ok newRange /\
     snd run = remove :: collect :: open newRange :: nil) /\
  (forall (r0 : SuiClientService.Response.t) (error : Error),
     checkGasPrice = Ok tt ->
     executeTransaction 0%nat remove = Ok r0 ->
     executeTransaction 1%nat collect = Throw error ->
     run = (Throw error, remove :: collect :: nil)) /\
  (exists k : nat,
     snd run
     = firstn k (remove :: collect
                 :: match range with
                    | Ok newRange => open newRange :: nil
                    | Throw _ => nil
                    end)).
Proof.
  intros run remove collect range open.
  unfold run, RebalanceSteps.rebalance, RebalanceSteps.send.
  fold remove collect range.
  cbn [Datatypes.length Datatypes.app].
  destruct checkGasPrice as [[]|e0].
  2:{ cbn [fst snd]. split; [|split; [|split]].
      - split; [discriminate|].
        intros (nr & r0 & r1 & r2 & H & _). discriminate.
      - discriminate.
      - discriminate.
      - exists 0%nat. reflexivity. }
  destruct (executeTransaction 0%nat remove) as [r0|e1]; cbn [bind fst snd].
  2:{ split; [|split; [|split]].
      - split; [discriminate|].
        intros (nr & q0 & q1 & q2 & _ & H & _). discriminate.
      - discriminate.
      - discriminate.
      - exists 1%nat. reflexivity. }
  destruct (executeTransaction 1%nat collect) as [r1|e2]; cbn [bind fst snd].
  2:{ split; [|split; [|split]].
      - split; [discriminate|].
        intros (nr & q0 & q1 & q2 & _ & _ & H & _). discriminate.
      - discriminate.
      - intros q0 error _ _ H. injection H as <-. reflexivity.
      - exists 2%nat. destruct range; reflexivity. }
  destruct range as [newRange|e3] eqn:Er; cbn [bind fst snd].
  2:{ split; [|split; [|split]].
      - split; [discriminate|].
        intros (nr & q0 & q1 & q2 & _ & _ & _ & H & _). discriminate.
      - discriminate.
      - discriminate.
      - exists 2%nat. reflexivity. }
  fold (open newRange).
  destruct (executeTransaction 2%nat (open newRange)) as [r2|e4] eqn:E2;
    cbn [bind fst snd].
  - split; [|split; [|split]].
    + split; [intros _|reflexivity].
      exists newRange, r0, r1, r2. repeat split; assumption.
    + intros _. exists newRange. split; reflexivity.
    + discriminate.
    + exists 3%nat. reflexivity.
  - split; [|split; [|split]].
    + split; [discriminate|].
      intros (nr & q0 & q1 & q2 & _ & _ & _ & H & H2).
      injection H as <-. rewrite E2 in H2. discriminate.
    + discriminate.
    + discriminate.
    + exists 3%nat. reflexivity.
Qed.

(** The out-of-range position of scenario B on a client whose second
    transaction fails. *)
Lemma rebalance_steps_not_atomic_example :
  RebalanceSteps.rebalance
    (BotTickMath.calculateTickRange tickNativeHalfWidth) defaultConfig
    "0xpackage" "0xconfig" (Ok tt) secondFails
    (scenarioPool 13500) (scenarioPosition 11000 13000)
  = (Throw (RpcError "fetch failed"),
     RebalanceSteps.removeLiquidityTx "0xpackage" "0xconfig"
       (scenarioPosition 11000 13000)
     :: RebalanceSteps.collectFeesTx "0xpackage" "0xconfig"
          (scenarioPosition 11000 13000)
     :: nil).
Proof.
  apply (proj1 (proj2 (proj2
           (rebalance_steps_not_atomic
              (BotTickMath.calculateTickRange tickNativeHalfWidth)
              defaultConfig "0xpackage" "0xconfig" (Ok tt) secondFails
              (scenarioPool 13500) (scenarioPosition 11000 13000))))
           successResponse (RpcError "fetch failed"));
    reflexivity.
Defined.
